(** * httpc: request options and response handler chains

    A shallow embedding of [github.com/nussjustin/httpc] (httpc.go and the
    earlier Endpoint API) together with the properties its documentation
    states.

    Conventions of the embedding:
    - a Go [string] is a Rocq [string] (a sequence of bytes);
    - a Go [error] interface value is [error := option err]; [None] is the
      nil interface;
    - a handler receives pointers ([dst], [resp]) to mutable objects; the
      objects behind the pointers are the [World] a handler transforms;
    - call sites of interest emit ghost [Event]s, so that "is invoked" and
      "is not invoked" are statements about the emitted trace;
    - the [Do] of an [http.Client] acts on the network: it takes the state
      of the network and returns the state it leaves, so that "is sent" and
      "is not sent" are statements about that state. *)

From Stdlib Require Import ZArith Lia Bool Ascii String List.
From stdpp Require Import base option list strings gmap sorting.

Local Open Scope string_scope.
Local Open Scope list_scope.
Local Open Scope Z_scope.

(** ** Go errors *)

Module GoErrors.

(** The result of [errors.New]: a pointer to an [errorString]. Two such
    values are [==] exactly when they are the same allocation, which the
    embedding records as [es_id]. *)
Record errorString := mkErrorString { es_id : positive; es_text : string }.

(** [*problem.Details] of github.com/nussjustin/problem, kept as the decoded
    document. *)
Record Details := mkDetails { Title : string }.

(** [net/url.URL], restricted to the fields httpc touches. *)
Record URL := mkURL { Path : string; RawQuery : string }.

(** Dynamic error values. [wrapError] is what [fmt.Errorf] with [%w] builds,
    [joinError] what [errors.Join] builds; [detailsError] is a
    [*problem.Details] stored in an [error] interface, where the pointer may
    be nil ([None]) while the interface is not. *)
#[warnings="-register-all"]
Inductive err : Type :=
| errNew (s : errorString)
| wrapError (msg : string) (inner : err)
| joinError (errs : list err)
| unusedPathValueError (url : URL) (name value : string)
| detailsError (p : option Details)
| otherError (msg : string).

Definition error := option err.

(** [errors.Is(e, target)] for a non-nil [e] and a sentinel [target] made with
    [errors.New]: the [Unwrap] tree of [e] is searched depth first for a value
    that [==] the target. *)
Fixpoint errors_is (e : err) (target : errorString) : bool :=
  match e with
  | errNew s => Pos.eqb (es_id s) (es_id target)
  | wrapError _ inner => errors_is inner target
  | joinError errs =>
      (fix any (l : list err) : bool :=
         match l with
         | [] => false
         | x :: l' => errors_is x target || any l'
         end) errs
  | unusedPathValueError _ _ _ => false
  | detailsError _ => false
  | otherError _ => false
  end.

(** [errors.Is(e, target)]; a nil [e] never matches a non-nil target. *)
Definition errors_Is (e : error) (target : errorString) : bool :=
  match e with
  | None => false
  | Some x => errors_is x target
  end.

End GoErrors.
Export GoErrors.

(** ** Responses *)

(** One outcome of a future [Read] call on a body. *)
Inductive ReadResult :=
| Data (bytes : string)
| Fail (e : err).

(** An [io.ReadCloser] used as response body. [pending] lists the outcomes of
    the [Read] calls still to come (end of list is [io.EOF]); [closed_read],
    when set, is the error every [Read] returns once the body is closed (as
    net/http's own bodies do); [close_err] is what [Close] returns. *)
Record Body := mkBody {
  pending : list ReadResult;
  closed : bool;
  closed_read : option err;
  close_err : error
}.

(** [http.Response], restricted to the fields httpc touches; a header is a
    map from canonical keys to their values. The body is never nil, as
    net/http promises for the responses of a client. *)
Record Response := mkResponse {
  StatusCode : Z;
  RespHeader : gmap string (list string);
  RespBody : Body
}.

(** [resp.Body.Close()]. *)
Definition Body_Close (b : Body) : error * Body :=
  (close_err b, mkBody (pending b) true (closed_read b) (close_err b)).

(** The loop of [io.Copy(io.Discard, r)] over the outcomes still to come. *)
Fixpoint copy_discard (p : list ReadResult) : error * list ReadResult :=
  match p with
  | [] => (None, [])
  | Data _ :: p' => copy_discard p'
  | Fail e :: p' => (Some e, p')
  end.

(** [io.Copy(io.Discard, resp.Body)]: reads until EOF or the first error. *)
Definition io_Copy_Discard (b : Body) : error * Body :=
  match closed b, closed_read b with
  | true, Some e => (Some e, b)
  | _, _ =>
      let '(e, p) := copy_discard (pending b) in
      (e, mkBody p (closed b) (closed_read b) (close_err b))
  end.

(** ** Strings and headers *)

(** [strings.Index(s, sep)]. *)
Definition strings_Index (s sep : string) : option nat := String.index 0 sep s.

(** [strings.Cut(s, sep)]. *)
Definition strings_Cut (s sep : string) : string * string * bool :=
  match strings_Index s sep with
  | Some i =>
      (String.substring 0 i s,
       String.substring (i + String.length sep) (String.length s - (i + String.length sep)) s,
       true)
  | None => (s, EmptyString, false)
  end.

Definition in_range (lo hi c : ascii) : bool :=
  (nat_of_ascii lo <=? nat_of_ascii c)%nat && (nat_of_ascii c <=? nat_of_ascii hi)%nat.

Definition mem_ascii (c : ascii) (s : string) : bool :=
  existsb (Ascii.eqb c) (list_ascii_of_string s).

(** [textproto.validHeaderFieldByte]: the token characters of RFC 7230. *)
Definition validHeaderFieldByte (c : ascii) : bool :=
  in_range "a" "z" c || in_range "A" "Z" c || in_range "0" "9" c
  || mem_ascii c "!#$%&'*+-.^_`|~".

Definition toUpper (c : ascii) : ascii :=
  if in_range "a" "z" c then ascii_of_nat (nat_of_ascii c - 32) else c.

Definition toLower (c : ascii) : ascii :=
  if in_range "A" "Z" c then ascii_of_nat (nat_of_ascii c + 32) else c.

(** The rewriting loop of [textproto.canonicalMIMEHeaderKey]: upper case at
    the start and after each dash, lower case elsewhere. *)
Fixpoint canonicalize (upper : bool) (s : string) : string :=
  match s with
  | EmptyString => EmptyString
  | String c s' =>
      let c' := if upper then toUpper c else toLower c in
      String c' (canonicalize (Ascii.eqb c' "-") s')
  end.

(** [textproto.CanonicalMIMEHeaderKey]: a key holding a byte that is not a
    token character is returned unchanged. *)
Definition CanonicalMIMEHeaderKey (s : string) : string :=
  if forallb validHeaderFieldByte (list_ascii_of_string s)
  then canonicalize true s
  else s.

(** [http.Header.Get]. *)
Definition Header_Get (h : gmap string (list string)) (key : string) : string :=
  match h !! CanonicalMIMEHeaderKey key with
  | Some (v :: _) => v
  | _ => EmptyString
  end.

(** [http.Header.Set]. *)
Definition Header_Set (h : gmap string (list string)) (key value : string)
  : gmap string (list string) :=
  <[CanonicalMIMEHeaderKey key := [value]]> h.

(** ** Handlers *)

(** Ghost events emitted at the call sites of handlers. *)
Inductive Event :=
| EvCall (i : nat)      (* a handler loop calls its [i]-th handler *)
| EvDispatch.           (* [ConditionalHandler] calls the wrapped handler *)

Definition is_nil (e : error) : bool :=
  match e with None => true | Some _ => false end.

(** [ErrUnhandledResponse = errors.New(...)]. *)
Definition ErrUnhandledResponse : errorString :=
  mkErrorString 1 "github.com/nussjustin/httpc: unhandled response".

Section Handlers.

(** The type of the value behind [dst]. *)
Context {T : Type}.

(** The objects a handler reaches through its two pointer arguments. *)
Record World := mkWorld { w_dst : T; w_resp : Response }.

(** [Handler.HandleResponse(dst, resp) error]: the error, the objects as the
    call leaves them, and the events of the calls made inside. *)
Definition Handler := World -> error * World * list Event.

(** [HandlerFunc.HandleResponse] returns [h(dst, resp)]. *)
Definition HandlerFunc (h : World -> error * World * list Event) : Handler := h.

Definition HandlerChain := list Handler.

(** The loop of [HandlerChain.HandleResponse], at index [i] with the handlers
    [h[i:]] still to try. *)
Fixpoint HandleResponse_from (i : nat) (h : list Handler) (w : World)
  : error * World * list Event :=
  match h with
  | [] => (Some (errNew ErrUnhandledResponse), w, [])
  | hi :: rest =>
      let '(err, w1, evs) := hi w in
      if is_nil err || negb (errors_Is err ErrUnhandledResponse)
      then (err, w1, EvCall i :: evs)
      else
        let '(r, w2, evs2) := HandleResponse_from (S i) rest w1 in
        (r, w2, EvCall i :: evs ++ evs2)
  end.

(** [HandlerChain.HandleResponse]. *)
Definition HandlerChain_HandleResponse (h : HandlerChain) : Handler :=
  HandleResponse_from 0 h.

(** [ErrorHandler]. *)
Definition ErrorHandler (e : error) : Handler :=
  HandlerFunc (fun w => (e, w, [])).

(** [ConditionalHandler]. *)
Definition ConditionalHandler (cond : Response -> bool) (handler : Handler) : Handler :=
  HandlerFunc (fun w =>
    if negb (cond (w_resp w))
    then (Some (errNew ErrUnhandledResponse), w, [])
    else
      let '(e, w1, evs) := handler w in
      (e, w1, EvDispatch :: evs)).

(** The condition closure of [ContentTypeHandler]. *)
Definition contentTypeMatches (contentType : string) (resp : Response) : bool :=
  let value := Header_Get (RespHeader resp) "Content-Type" in
  if String.eqb value contentType then true
  else
    let value := fst (fst (strings_Cut value ";")) in
    String.eqb value contentType.

(** [ContentTypeHandler]. *)
Definition ContentTypeHandler (contentType : string) (handler : Handler) : Handler :=
  ConditionalHandler (contentTypeMatches contentType) handler.

(** [StatusHandler]. *)
Definition StatusHandler (statusCode : Z) (handler : Handler) : Handler :=
  ConditionalHandler (fun resp => Z.eqb (StatusCode resp) statusCode) handler.

(** The deferred closure shared by the body-reading handlers: close the body
    and report the close error unless an error is already being returned. *)
Definition deferred_Close (r : error * World * list Event) : error * World * list Event :=
  let '(err, w, evs) := r in
  let '(cErr, b) := Body_Close (RespBody (w_resp w)) in
  let resp := mkResponse (StatusCode (w_resp w)) (RespHeader (w_resp w)) b in
  let err := if negb (is_nil cErr) && is_nil err then cErr else err in
  (err, mkWorld (w_dst w) resp, evs).

(** [discardBody]. *)
Definition discardBody (resp : Response) : error * Response :=
  let '(err, b) := io_Copy_Discard (RespBody resp) in
  let '(cErr, b) := Body_Close b in
  let err := if negb (is_nil cErr) && is_nil err then cErr else err in
  (err, mkResponse (StatusCode resp) (RespHeader resp) b).

(** [DiscardBodyHandler]. *)
Definition DiscardBodyHandler : Handler :=
  HandlerFunc (fun w =>
    let '(err, resp) := discardBody (w_resp w) in
    (err, mkWorld (w_dst w) resp, [])).

End Handlers.

Arguments World : clear implicits.
Arguments Handler : clear implicits.
Arguments HandlerChain : clear implicits.

(** ** Handlers that read the body; requests and Fetch *)

(** [http.Request], restricted to the fields httpc touches. [ReqBody] is the
    content the body reader yields, [GetBody] the content every reader made
    by the [GetBody] function yields. *)
Record Request := mkRequest {
  Method : string;
  ReqURL : URL;
  ReqHeader : gmap string (list string);
  ContentLength : Z;
  ReqBody : option string;
  GetBody : option string
}.

(** What [http.Client.Do] returns: a response and a nil error, or an error
    with a response that may be nil (net/http never returns both nil). *)
Inductive DoResult :=
| DoOk (resp : Response)
| DoErr (resp : option Response) (e : err).

(** What lies behind the clients and outlasts a call: here the requests that
    were sent, oldest first. A call of [Do] may read it and leaves it
    changed. *)
Definition Net := list Request.

(** A client, as far as httpc uses it: its [Do] method, which returns its
    result and the network as the call leaves it. Nothing is assumed about
    what a client does with either. *)
Definition Client := Request -> Net -> DoResult * Net.

(** Ghost events of one [Fetch] call. *)
Inductive FetchEvent :=
| EvOption (i : nat)              (* [opts[i]] is applied *)
| EvDo (req : Request)            (* [Client.Do(req)] is called *)
| EvHandle (evs : list Event)     (* the handler runs *)
| EvDiscard.                      (* the deferred [discardBody] runs *)

Section Fetch.

Context {T : Type}.
(** The zero value of [T]. *)
Variable zeroT : T.

(** The type of values given to [WithBodyJSON]. *)
Context {V : Type}.

(** External packages, taken as given:
    [problem.ContentType] and [problem.From] of github.com/nussjustin/problem,
    [json.Marshal] and [json.UnmarshalRead] of go-json-experiment,
    [xml.Decoder.Decode], [http.NewRequestWithContext] (the context plays
    no part here) and [http.DefaultClient]. The decoders return the objects
    they read from and write to as they leave them. *)
Variable problem_ContentType : string.
Variable problem_From : Response -> option Details * error * Response.
Variable json_Marshal : V -> err + string.
Variable json_UnmarshalRead : Body -> T -> error * Body * T.
Variable xml_Decode : bool -> Body -> T -> error * Body * T.
Variable http_NewRequestWithContext : string -> string -> err + Request.
Variable http_DefaultClient : Client.

(** [ProblemHandler]. *)
Definition ProblemHandler : Handler T :=
  ContentTypeHandler problem_ContentType
    (HandlerFunc (fun w =>
       deferred_Close
         (let '(details, err, resp) := problem_From (w_resp w) in
          if negb (is_nil err)
          then (err, mkWorld (w_dst w) resp, [])
          else (Some (detailsError details), mkWorld (w_dst w) resp, [])))).

(** [UnmarshalJSONHandler]. *)
Definition UnmarshalJSONHandler : Handler T :=
  HandlerFunc (fun w =>
    deferred_Close
      (let '(err, b, t) := json_UnmarshalRead (RespBody (w_resp w)) (w_dst w) in
       (err, mkWorld t (mkResponse (StatusCode (w_resp w)) (RespHeader (w_resp w)) b), []))).

(** [UnmarshalXMLHandler]. *)
Definition UnmarshalXMLHandler (strict : bool) : Handler T :=
  HandlerFunc (fun w =>
    deferred_Close
      (let '(err, b, t) := xml_Decode strict (RespBody (w_resp w)) (w_dst w) in
       (err, mkWorld t (mkResponse (StatusCode (w_resp w)) (RespHeader (w_resp w)) b), []))).

(** [DefaultHandlers]. *)
Definition DefaultHandlers : HandlerChain T :=
  [ ProblemHandler;
    ContentTypeHandler "application/json" UnmarshalJSONHandler;
    ContentTypeHandler "application/xml" (UnmarshalXMLHandler false);
    StatusHandler 204 DiscardBodyHandler;
    StatusHandler 304 DiscardBodyHandler ].

(** [fetchContext]. [Request] holds the request object behind the pointer,
    which is the object [FetchWithResponse] later sends: no option of the
    package re-points the field. *)
Record fetchContext := mkFetchContext {
  fc_Client : Client;
  fc_Request : Request;
  fc_Handler : Handler T
}.

(** [FetchOption]: the error and the context as the option leaves it. *)
Definition FetchOption := fetchContext -> error * fetchContext.

(** The loop [for _, opt := range opts] of [FetchWithResponse], at index [i];
    [inl] is the error that ends it early. *)
Fixpoint apply_options (i : nat) (opts : list FetchOption) (fetchCtx : fetchContext)
  : (err + fetchContext) * list FetchEvent :=
  match opts with
  | [] => (inr fetchCtx, [])
  | opt :: rest =>
      match opt fetchCtx with
      | (Some e, _) => (inl e, [EvOption i])
      | (None, fetchCtx') =>
          let '(r, evs) := apply_options (S i) rest fetchCtx' in
          (r, EvOption i :: evs)
      end
  end.

(** [FetchWithResponse], called with the network in the state [net]: the
    three results, the events of the call and the network as the call leaves
    it. The response is given as the call leaves the object behind the
    pointer. [fetchCtx.Client.Do(req)] is the one place that touches the
    network. *)
Definition FetchWithResponse (method url : string) (opts : list FetchOption) (net : Net)
  : T * option Response * error * list FetchEvent * Net :=
  match http_NewRequestWithContext method url with
  | inl e => (zeroT, None, Some e, [], net)
  | inr req =>
      let fetchCtx :=
        mkFetchContext http_DefaultClient req (HandlerChain_HandleResponse DefaultHandlers) in
      match apply_options 0 opts fetchCtx with
      | (inl e, evs) => (zeroT, None, Some e, evs, net)
      | (inr fetchCtx, evs) =>
          let req := fc_Request fetchCtx in
          match fc_Client fetchCtx req net with
          | (DoErr resp e, net') => (zeroT, resp, Some e, evs ++ [EvDo req], net')
          | (DoOk resp, net') =>
              let '(e, w, hevs) := fc_Handler fetchCtx (mkWorld zeroT resp) in
              let evs := evs ++ [EvDo req; EvHandle hevs] in
              if negb (is_nil e)
              then (zeroT, Some (w_resp w), e, evs, net')
              else (w_dst w, Some (w_resp w), None, evs, net')
          end
      end
  end.

(** [Fetch]: its two results, then the response object as the call leaves it
    (the pointer itself is dropped), the events of the call and the network
    as the call leaves it. *)
Definition Fetch (method url : string) (opts : list FetchOption) (net : Net)
  : T * error * option Response * list FetchEvent * Net :=
  let '(t, resp, e, evs, net') := FetchWithResponse method url opts net in
  match resp with
  | Some r =>
      let '(_, r') := discardBody r in
      (t, e, Some r', evs ++ [EvDiscard], net')
  | None => (t, e, None, evs, net')
  end.

(** [WithClient]. *)
Definition WithClient (client : Client) : FetchOption :=
  fun fetchCtx => (None, mkFetchContext client (fc_Request fetchCtx) (fc_Handler fetchCtx)).

(** [WithHandler]. *)
Definition WithHandler (h : Handler T) : FetchOption :=
  fun ctx => (None, mkFetchContext (fc_Client ctx) (fc_Request ctx) h).

(** [WithHeader]. *)
Definition WithHeader (key value : string) : FetchOption :=
  fun ctx =>
    let r := fc_Request ctx in
    (None, mkFetchContext (fc_Client ctx)
             (mkRequest (Method r) (ReqURL r) (Header_Set (ReqHeader r) key value)
                        (ContentLength r) (ReqBody r) (GetBody r))
             (fc_Handler ctx)).

(** [WithBodyJSON]. *)
Definition WithBodyJSON (v : V) : FetchOption :=
  fun ctx =>
    match json_Marshal v with
    | inl e => (Some e, ctx)
    | inr body =>
        let r := fc_Request ctx in
        let header :=
          if String.eqb (Header_Get (ReqHeader r) "Content-Type") EmptyString
          then Header_Set (ReqHeader r) "Content-Type" "application/json"
          else ReqHeader r in
        (None, mkFetchContext (fc_Client ctx)
                 (mkRequest (Method r) (ReqURL r) header
                            (Z.of_nat (String.length body)) (Some body) (Some body))
                 (fc_Handler ctx))
    end.

End Fetch.

(** ** regexp and net/url, as far as [WithPathValue] uses them *)

Module Regexp.

(** The syntax the pattern of [WithPathValue] is built from. *)
Inductive regex :=
| Lit (s : string)
| BeginText                       (* ^ *)
| EndText                         (* $ *)
| Alt (a b : regex)               (* a|b, preferring a *)
| Seq (a b : regex)
| Capture (n : nat) (a : regex).

(** A match: start and end offsets and the text of each group that took part
    in it (group 0 is the whole match). *)
Record Match := mkMatch {
  m_start : nat;
  m_end : nat;
  m_groups : list (nat * string)
}.

Definition drop_string (n : nat) (s : string) : string :=
  String.substring n (String.length s - n) s.

(** Backtracking matcher with leftmost-first preference. [pos] is the offset
    of [rest] in the whole text; [k] is what remains to be matched. *)
Fixpoint rmatch {R : Type} (r : regex) (pos : nat) (rest : string)
    (caps : list (nat * string))
    (k : nat -> string -> list (nat * string) -> option R) : option R :=
  match r with
  | Lit s =>
      if String.prefix s rest
      then k (pos + String.length s)%nat (drop_string (String.length s) rest) caps
      else None
  | BeginText => if Nat.eqb pos 0 then k pos rest caps else None
  | EndText => if Nat.eqb (String.length rest) 0 then k pos rest caps else None
  | Alt a b =>
      match rmatch a pos rest caps k with
      | Some x => Some x
      | None => rmatch b pos rest caps k
      end
  | Seq a b => rmatch a pos rest caps (fun pos' rest' caps' => rmatch b pos' rest' caps' k)
  | Capture n a =>
      rmatch a pos rest caps
        (fun pos' rest' caps' =>
           k pos' rest' ((n, String.substring 0 (pos' - pos) rest) :: caps'))
  end.

(** The match of [re] that starts exactly at offset [pos]. *)
Definition match_at (re : regex) (pos : nat) (rest : string) : option Match :=
  rmatch re pos rest []
    (fun pos' _ caps =>
       Some (mkMatch pos pos' ((0%nat, String.substring 0 (pos' - pos) rest) :: caps))).

(** [doExecute] from offset [pos]: the leftmost match starting at or after
    [pos]. [rest] is the text from [pos] on. *)
Fixpoint doExecute (re : regex) (pos : nat) (rest : string) : option Match :=
  match match_at re pos rest with
  | Some m => Some m
  | None =>
      match rest with
      | EmptyString => None
      | String _ rest' => doExecute re (S pos) rest'
      end
  end.

Definition isDigit (c : ascii) : bool := in_range "0" "9" c.
Definition isLetter (c : ascii) : bool := in_range "a" "z" c || in_range "A" "Z" c.

(** The scan of [extract] over letters, digits and underscores. *)
Fixpoint name_length (s : string) : nat :=
  match s with
  | String c s' =>
      if isLetter c || isDigit c || Ascii.eqb c "_" then S (name_length s') else 0%nat
  | EmptyString => 0%nat
  end.

(** The number parsing loop of [extract]; [None] stands for [num = -1]. *)
Fixpoint parse_num (name : string) (num : N) : option N :=
  match name with
  | EmptyString => Some num
  | String c name' =>
      if negb (isDigit c) || (100000000 <=? num)%N then None
      else parse_num name' (num * 10 + (N_of_ascii c - 48))%N
  end.

(** [extract]: the name, its number if it is one, and the rest. *)
Definition extract (str : string) : option (string * option N * string) :=
  match str with
  | EmptyString => None
  | String c0 _ =>
      let brace := Ascii.eqb c0 "{" in
      let str := if brace then drop_string 1 str else str in
      let i := name_length str in
      if Nat.eqb i 0 then None
      else
        let name := String.substring 0 i str in
        if brace && negb (String.prefix "}" (drop_string i str)) then None
        else
          let i := if brace then S i else i in
          let num := parse_num name 0 in
          let num :=
            if String.prefix "0" name && (1 <? String.length name)%nat then None else num in
          Some (name, num, drop_string i str)
  end.

(** [Regexp.expand] for a pattern without named groups: [$n] and [${n}] give
    group [n] when it exists and took part in the match, a name that is not a
    number gives nothing, [$$] gives a dollar sign. *)
Fixpoint expand (fuel : nat) (dst template : string) (m : Match) : string :=
  match fuel with
  | O => dst +:+ template
  | S fuel' =>
      match strings_Cut template "$" with
      | (_, _, false) => dst +:+ template
      | (before, after, true) =>
          let dst := dst +:+ before in
          if String.prefix "$" after
          then expand fuel' (dst +:+ "$") (drop_string 1 after) m
          else
            match extract after with
            | None => expand fuel' (dst +:+ "$") after m
            | Some (_, num, rest) =>
                let dst :=
                  match num with
                  | Some n =>
                      match list_find (fun g => Nat.eqb (fst g) (N.to_nat n)) (m_groups m) with
                      | Some (_, (_, text)) => dst +:+ text
                      | None => dst
                      end
                  | None => dst
                  end in
                expand fuel' dst rest m
            end
      end
  end.

(** The loop of [Regexp.replaceAll] for a pattern whose matches are never
    empty: after a match the search resumes at its end. [rest] is the text
    from [pos] on and [lastMatchEnd = pos] throughout. *)
Fixpoint replaceAll (fuel : nat) (re : regex) (pos : nat) (rest : string)
    (repl : Match -> string) : string :=
  match fuel with
  | O => rest
  | S fuel' =>
      match doExecute re pos rest with
      | None => rest
      | Some a =>
          String.substring 0 (m_start a - pos) rest
          +:+ repl a
          +:+ replaceAll fuel' re (m_end a) (drop_string (m_end a - pos) rest) repl
      end
  end.

(** [Regexp.ReplaceAllString]. *)
Definition ReplaceAllString (re : regex) (src repl : string) : string :=
  replaceAll (S (String.length src)) re 0 src
    (fun a => expand (S (String.length repl)) EmptyString repl a).

End Regexp.

Definition upperhex (n : nat) : ascii :=
  match String.get n "0123456789ABCDEF" with Some c => c | None => "0"%char end.

(** [url.shouldEscape(c, encodePathSegment)]. *)
Definition shouldEscape (c : ascii) : bool :=
  if in_range "a" "z" c || in_range "A" "Z" c || in_range "0" "9" c then false
  else if mem_ascii c "-_.~" then false
  else if mem_ascii c "$&+,/:;=?@" then mem_ascii c "/;,?"
  else true.

(** [url.PathEscape]. *)
Fixpoint PathEscape (s : string) : string :=
  match s with
  | EmptyString => EmptyString
  | String c s' =>
      if shouldEscape c
      then String "%" (String (upperhex (nat_of_ascii c / 16))
                         (String (upperhex (nat_of_ascii c mod 16)) (PathEscape s')))
      else String c (PathEscape s')
  end.

Section PathValue.

Context {T : Type}.

(** The pattern [(^|/)\{name\}(/|$)] with the name quoted by
    [regexp.QuoteMeta], that is, taken literally. The name is valid UTF-8
    without U+FFFD, for which matching runes is matching bytes (on a name
    that is not valid UTF-8 [regexp.MustCompile] panics). *)
Definition pathValuePattern (name : string) : Regexp.regex :=
  Regexp.Seq (Regexp.Capture 1 (Regexp.Alt Regexp.BeginText (Regexp.Lit "/")))
    (Regexp.Seq (Regexp.Lit "{")
       (Regexp.Seq (Regexp.Lit name)
          (Regexp.Seq (Regexp.Lit "}")
             (Regexp.Capture 2 (Regexp.Alt (Regexp.Lit "/") Regexp.EndText))))).

(** [WithPathValue]. *)
Definition WithPathValue (name value : string) : @FetchOption T :=
  let pattern := pathValuePattern name in
  fun ctx =>
    let r := fc_Request ctx in
    let replaced :=
      Regexp.ReplaceAllString pattern (Path (ReqURL r))
        ("${1}" +:+ PathEscape value +:+ "${2}") in
    if String.eqb (Path (ReqURL r)) replaced
    then (Some (unusedPathValueError (ReqURL r) name value), ctx)
    else
      (None, mkFetchContext (fc_Client ctx)
               (mkRequest (Method r) (mkURL replaced (RawQuery (ReqURL r))) (ReqHeader r)
                          (ContentLength r) (ReqBody r) (GetBody r))
               (fc_Handler ctx)).

End PathValue.

(** ** The handler loop of [Endpoint.Do] (the earlier API) *)

Module Endpoint.

(** [ErrNotHandled] and [ErrSkipHandler], two more [errors.New] values. *)
Definition ErrNotHandled : errorString := mkErrorString 2 "not handled".
Definition ErrSkipHandler : errorString := mkErrorString 3 "handler skipped".

(** How the loop over [e.Handlers] is left. *)
Inductive loop_exit :=
| Returned (handlerErr : error)   (* [return zeroT, nil, handlerErr] *)
| Broke                           (* [handled = true; break] *)
| Exhausted.                      (* the range ended, [handled] still false *)

Section Do.

Context {T : Type}.
Variable zeroT : T.

(** The loop [for _, h := range e.Handlers] of [Endpoint.Do]; here a handler
    is the function itself. *)
Fixpoint handlers_loop (i : nat) (hs : list (Handler T)) (w : World T)
  : loop_exit * World T * list Event :=
  match hs with
  | [] => (Exhausted, w, [])
  | h :: rest =>
      let '(handlerErr, w1, evs) := h w in
      if is_nil handlerErr then (Broke, w1, EvCall i :: evs)
      else if errors_Is handlerErr ErrSkipHandler then
        let '(x, w2, evs2) := handlers_loop (S i) rest w1 in
        (x, w2, EvCall i :: evs ++ evs2)
      else (Returned handlerErr, w1, EvCall i :: evs)
  end.

(** [Endpoint.Do] from [var t T] to its end: the three results, the objects
    as the handlers leave them and the events of the loop. [w] holds [t] and
    the response received. *)
Definition Do_dispatch (hs : list (Handler T)) (w : World T)
  : T * option Response * error * World T * list Event :=
  let '(x, w', evs) := handlers_loop 0 hs w in
  match x with
  | Returned handlerErr => (zeroT, None, handlerErr, w', evs)
  | Exhausted => (zeroT, None, Some (errNew ErrNotHandled), w', evs)
  | Broke => (w_dst w', Some (w_resp w'), None, w', evs)
  end.

End Do.

(** The renaming between the two APIs on error values: [ErrUnhandledResponse]
    and [ErrSkipHandler] change places, wherever they are wrapped. *)
Fixpoint rename (e : err) : err :=
  match e with
  | errNew s =>
      if Pos.eqb (es_id s) (es_id ErrUnhandledResponse) then errNew ErrSkipHandler
      else if Pos.eqb (es_id s) (es_id ErrSkipHandler) then errNew ErrUnhandledResponse
      else e
  | wrapError msg inner => wrapError msg (rename inner)
  | joinError errs =>
      joinError ((fix go (l : list err) : list err :=
                    match l with
                    | [] => []
                    | x :: l' => rename x :: go l'
                    end) errs)
  | _ => e
  end.

Definition rename_error (e : error) : error :=
  match e with
  | None => None
  | Some x => Some (rename x)
  end.

(** A handler of one API seen from the other. *)
Definition rename_handler {T : Type} (h : Handler T) : Handler T :=
  fun w => let '(e, w', evs) := h w in (rename_error e, w', evs).

(** The renaming on the result of a whole dispatch: the error of an exhausted
    chain becomes [ErrNotHandled]. *)
Definition rename_result (e : error) : error :=
  if errors_Is e ErrUnhandledResponse then Some (errNew ErrNotHandled)
  else rename_error e.

End Endpoint.

(** ** Reference notions the statements use *)

Section Reference.

Context {T : Type}.

(** Calling every handler of [hs] once, first to last, each on the objects
    the previous one left: the errors returned, the final objects and the
    events. [i] is the index of the first handler. *)
Fixpoint invoke_each (i : nat) (hs : list (Handler T)) (w : World T)
  : list error * World T * list Event :=
  match hs with
  | [] => ([], w, [])
  | h :: rest =>
      let '(e, w1, evs) := h w in
      let '(es, w2, evs2) := invoke_each (S i) rest w1 in
      (e :: es, w2, EvCall i :: evs ++ evs2)
  end.

(** An error that makes a chain fall through to its next handler. *)
Definition falls_through (e : error) : Prop :=
  errors_Is e ErrUnhandledResponse = true.

(** An error (or nil) that stops a chain. *)
Definition stops (e : error) : Prop :=
  e = None ∨ errors_Is e ErrUnhandledResponse = false.

End Reference.

(** Concrete objects for the examples. *)
Definition emptyBody : Body := mkBody [] false None None.
Definition response200 : Response := mkResponse 200 ∅ emptyBody.
Definition world0 : World nat := mkWorld 0%nat response200.

(** The header value without its parameters: what precedes the first
    semicolon, or all of it when there is none. *)
Fixpoint before_semicolon (s : string) : string :=
  match s with
  | EmptyString => EmptyString
  | String c s' => if Ascii.eqb c ";" then EmptyString else String c (before_semicolon s')
  end.

(** The response's Content-Type matches [contentType]: as it is or with its
    parameters removed. *)
Definition content_type_matches (contentType : string) (resp : Response) : Prop :=
  let value := Header_Get (RespHeader resp) "Content-Type" in
  value = contentType ∨ before_semicolon value = contentType.

Definition jsonResponse : Response :=
  mkResponse 200 {[ "Content-Type" := ["application/json; charset=utf-8"] ]}
    (mkBody [Data "{}"] false None None).

Definition problemResponse : Response :=
  mkResponse 400 {[ "Content-Type" := ["application/problem+json"] ]}
    (mkBody [Data "{}"] false None None).

(** A stand-in for [problem.From] in the examples: it reads the whole body
    and decodes a fixed document. *)
Definition exampleFrom (resp : Response) : option Details * error * Response :=
  (Some (mkDetails "some problem"), None,
   mkResponse (StatusCode resp) (RespHeader resp)
     (mkBody [] (closed (RespBody resp)) (closed_read (RespBody resp))
        (close_err (RespBody resp)))).

(** Applying every option of [opts] once, first to last, each to the context
    the previous one left; [None] as soon as one returns an error. *)
Fixpoint run_options {T : Type} (opts : list (@FetchOption T)) (ctx : @fetchContext T)
  : option (@fetchContext T) :=
  match opts with
  | [] => Some ctx
  | opt :: rest =>
      match opt ctx with
      | (None, ctx') => run_options rest ctx'
      | (Some _, _) => None
      end
  end.

(** A body is drained when no [Read] outcome is left unread. *)
Definition drained (b : Body) : Prop := pending b = [].

(** Stand-ins for the external packages in the examples. *)
Definition exampleRequest (method url : string) : err + Request :=
  inr (mkRequest method (mkURL url EmptyString) ∅ 0 None None).

Definition exampleUnmarshal (b : Body) (t : nat) : error * Body * nat :=
  (None, mkBody [] (closed b) (closed_read b) (close_err b), 1%nat).

Definition exampleDecode (strict : bool) (b : Body) (t : nat) : error * Body * nat :=
  (None, mkBody [] (closed b) (closed_read b) (close_err b), 2%nat).

Definition exampleClient : Client := fun req net => (DoOk jsonResponse, net ++ [req]).

(** A client whose response body yields one chunk, then a read error, and
    would yield more afterwards. *)
Definition interruptedBody : Body :=
  mkBody [Data "a"; Fail (otherError "unexpected EOF"); Data "b"] false None None.

Definition interruptedClient : Client :=
  fun req net => (DoOk (mkResponse 200 ∅ interruptedBody), net ++ [req]).

(** An option that fails, such as [WithBodyJSON] on a value that cannot be
    marshalled. *)
Definition failingOption {T : Type} : @FetchOption T :=
  fun ctx => (Some (otherError "json: cannot marshal from Go chan int"), ctx).

(** What [Header.Get] finds empty: the Content-Type header is not set, or set
    to nothing, or its first value is empty, whatever values follow it. *)
Definition content_type_first_value_empty (h : gmap string (list string)) : Prop :=
  h !! "Content-Type" = None
  ∨ h !! "Content-Type" = Some []
  ∨ ∃ vs, h !! "Content-Type" = Some (EmptyString :: vs).

(** In the words of the claim: [value] is an existing non-empty value of the
    Content-Type header. *)
Definition existing_content_type (h : gmap string (list string)) (value : string) : Prop :=
  value ≠ EmptyString ∧ ∃ vs, h !! "Content-Type" = Some vs ∧ value ∈ vs.

(** In the words of the claim: the header is unset or empty, it holds no
    value that is not empty. *)
Definition content_type_unset_or_empty (h : gmap string (list string)) : Prop :=
  ∀ value, ¬ existing_content_type h value.

(** A stand-in for [json.Marshal] in the examples. *)
Definition exampleMarshal (v : nat) : err + string :=
  match v with
  | O => inl (otherError "json: cannot marshal from Go chan int")
  | S _ => inr "{}"
  end.

Definition exampleContext : @fetchContext nat :=
  mkFetchContext exampleClient (mkRequest "GET" (mkURL "/info" EmptyString) ∅ 0 None None)
    (ErrorHandler None).

(** How the loop of [Endpoint.Do] is left, told from the error the chain
    returns. *)
Definition exit_of (e : error) : Endpoint.loop_exit :=
  if is_nil e then Endpoint.Broke
  else if errors_Is e ErrUnhandledResponse then Endpoint.Exhausted
  else Endpoint.Returned (Endpoint.rename_error e).

(** A handler for the examples: it returns [e] and counts its calls in the
    destination. *)
Definition counting (e : error) : Handler nat :=
  fun w => (e, mkWorld (S (w_dst w)) (w_resp w), []).

(** *** Path placeholders in the words of the documentation *)

Definition placeholder (name : string) : string := "{" +:+ name +:+ "}".

(** What follows a placeholder: a slash or the end of the path. *)
Definition segment_ends (s : string) : bool :=
  match s with
  | EmptyString => true
  | String c _ => Ascii.eqb c "/"
  end.

(** Replacing, left to right, every placeholder [ph] that stands right after
    the start of the path or a slash and right before a slash or the end by
    [v]. [skip] counts the bytes of a placeholder just replaced that are
    still to be passed over; [at_start] tells that the previous byte was a
    slash or that there is none. *)
Fixpoint replace_placeholders_from (skip : nat) (at_start : bool) (ph v s : string)
  : string :=
  match s with
  | EmptyString => EmptyString
  | String c s' =>
      match skip with
      | S k => replace_placeholders_from k false ph v s'
      | O =>
          if at_start && String.prefix ph s
             && segment_ends (Regexp.drop_string (String.length ph) s)
          then v +:+ replace_placeholders_from (String.length ph - 1) false ph v s'
          else String c (replace_placeholders_from 0 (Ascii.eqb c "/") ph v s')
      end
  end.

(** The path the documentation of [WithPathValue] promises. *)
Definition replace_every_placeholder (name value path : string) : string :=
  replace_placeholders_from 0 true (placeholder name) (PathEscape value) path.

(** A context whose request has the given path. *)
Definition contextWithPath (path : string) : @fetchContext nat :=
  mkFetchContext exampleClient (mkRequest "GET" (mkURL path EmptyString) ∅ 0 None None)
    (ErrorHandler None).

(** The path holds the placeholder of [name] right after its start or a slash
    and right before a slash or its end. *)
Definition has_placeholder (name path : string) : Prop :=
  ∃ pre post,
    path = pre +:+ placeholder name +:+ post
    ∧ (pre = EmptyString ∨ ∃ pre', pre = pre' +:+ "/")
    ∧ segment_ends post = true.

(** What follows the first group in the pattern of [WithPathValue]. *)
Definition afterSlash (name : string) : Regexp.regex :=
  Regexp.Seq (Regexp.Lit "{")
    (Regexp.Seq (Regexp.Lit name)
       (Regexp.Seq (Regexp.Lit "}")
          (Regexp.Capture 2 (Regexp.Alt (Regexp.Lit "/") Regexp.EndText)))).

(** ** Further notions the statements use *)

(** Every outcome still to come is data: reading meets no error. *)
Definition all_data (p : list ReadResult) : Prop :=
  Forall (λ r, ∃ bytes, r = Data bytes) p.

(** Reads on the body are answered from [pending]: the body is open, or it
    is one that can still be read after [Close]. *)
Definition readable (b : Body) : Prop :=
  closed b = false ∨ closed_read b = None.

(** The body [b] once closed, with [p] left to read. *)
Definition closed_with (p : list ReadResult) (b : Body) : Body :=
  mkBody p true (closed_read b) (close_err b).

(** The response [resp] with the body [b]. *)
Definition with_body (resp : Response) (b : Body) : Response :=
  mkResponse (StatusCode resp) (RespHeader resp) b.

(** The events that are calls of [Client.Do]. *)
Definition is_EvDo (ev : FetchEvent) : bool :=
  match ev with EvDo _ => true | _ => false end.

(** How many calls of [Client.Do] the events of a call show. *)
Fixpoint dispatches (evs : list FetchEvent) : nat :=
  match evs with
  | [] => 0%nat
  | ev :: evs' => ((if is_EvDo ev then 1 else 0) + dispatches evs')%nat
  end.

(** [FetchWithResponse] from [fetchCtx.Client.Do(req)] to its end, for a
    given client, handler, request and state of the network: the client is
    called once, with that request, and the network is left as that call
    left it. *)
Definition send_and_handle {T : Type} (zeroT : T) (client : Client) (handler : Handler T)
    (req : Request) (net : Net) : T * option Response * error * list FetchEvent * Net :=
  match fst (client req net) with
  | DoErr resp e => (zeroT, resp, Some e, [EvDo req], snd (client req net))
  | DoOk resp =>
      let '(e, w, hevs) := handler (mkWorld zeroT resp) in
      if negb (is_nil e)
      then (zeroT, Some (w_resp w), e, [EvDo req; EvHandle hevs], snd (client req net))
      else (w_dst w, Some (w_resp w), None, [EvDo req; EvHandle hevs], snd (client req net))
  end.

(** The string holds ASCII bytes only. *)
Fixpoint is_ascii (s : string) : bool :=
  match s with
  | EmptyString => true
  | String c s' => (N_of_ascii c <? 128)%N && is_ascii s'
  end.

(** The names for which [pathValuePattern] is the pattern that
    [regexp.MustCompile] compiles in [WithPathValue]: ASCII names, for which
    matching runes is matching bytes whatever the path holds, of less than
    2^20 bytes, far below the size at which the compilation refuses a
    pattern. On other names the compilation may panic, and a name holding
    U+FFFD also matches bytes of the path that are not UTF-8. *)
Definition plain_name (name : string) : bool :=
  is_ascii name && (N.of_nat (String.length name) <? 1048576)%N.

(** [http.Header.Add]. *)
Definition Header_Add (h : gmap string (list string)) (key value : string)
  : gmap string (list string) :=
  <[CanonicalMIMEHeaderKey key := default [] (h !! CanonicalMIMEHeaderKey key) ++ [value]]> h.

(** [http.Header.Values]: all the values of a header, none when it is not
    set. *)
Definition Header_Values (h : gmap string (list string)) (key : string) : list string :=
  default [] (h !! CanonicalMIMEHeaderKey key).

(** [WithAddedHeader]. *)
Definition WithAddedHeader {T : Type} (key value : string) : @FetchOption T :=
  fun ctx =>
    let r := fc_Request ctx in
    (None, mkFetchContext (fc_Client ctx)
             (mkRequest (Method r) (ReqURL r) (Header_Add (ReqHeader r) key value)
                        (ContentLength r) (ReqBody r) (GetBody r))
             (fc_Handler ctx)).

(** The request of a context with other headers. *)
Definition with_header {T : Type} (ctx : @fetchContext T) (h : gmap string (list string))
  : @fetchContext T :=
  let r := fc_Request ctx in
  mkFetchContext (fc_Client ctx)
    (mkRequest (Method r) (ReqURL r) h (ContentLength r) (ReqBody r) (GetBody r))
    (fc_Handler ctx).

(** The request of a context with another path. *)
Definition with_path {T : Type} (ctx : @fetchContext T) (path : string)
  : @fetchContext T :=
  let r := fc_Request ctx in
  mkFetchContext (fc_Client ctx)
    (mkRequest (Method r) (mkURL path (RawQuery (ReqURL r))) (ReqHeader r)
       (ContentLength r) (ReqBody r) (GetBody r))
    (fc_Handler ctx).

(** ** The earlier API: NewRequest, request options and Endpoint.Do *)

Module EndpointAPI.

(** [http.Request] as the earlier API uses it: the fields above and the
    trailer, which is nil on a new request. *)
Record TRequest := mkTRequest {
  tr_req : Request;
  Trailer : option (gmap string (list string))
}.

(** [RequestOption]: the error and the request as the option leaves it. *)
Definition RequestOption := TRequest -> error * TRequest.

(** A client as [Endpoint.Do] uses it. *)
Definition Client1 := TRequest -> DoResult.

(** Ghost events of [NewRequest] and [Endpoint.Do]. *)
Inductive DoEvent :=
| EvOpt (i : nat)                 (* the [i]-th merged option is applied *)
| EvSend (req : TRequest)         (* [client.Do(req)] *)
| EvHandlers (evs : list Event)   (* the loop over the handlers runs *)
| EvClose.                        (* the deferred [resp.Body.Close()] runs *)

Section NewRequest.

Variable http_NewRequestWithContext : string -> string -> err + Request.
Variable http_DefaultClient : Client1.

(** The loop [for _, opt := range opts] of [NewRequest], at index [i]. *)
Fixpoint apply_request_options (i : nat) (opts : list RequestOption) (req : TRequest)
  : (err + TRequest) * list DoEvent :=
  match opts with
  | [] => (inr req, [])
  | opt :: rest =>
      match opt req with
      | (Some e, _) => (inl e, [EvOpt i])
      | (None, req') =>
          let '(r, evs) := apply_request_options (S i) rest req' in
          (r, EvOpt i :: evs)
      end
  end.

(** [NewRequest]: the request (nil on error), the error and the events. *)
Definition NewRequest (method url : string) (opts : list RequestOption)
  : option TRequest * error * list DoEvent :=
  match http_NewRequestWithContext method url with
  | inl e => (None, Some e, [])
  | inr req =>
      match apply_request_options 0 opts (mkTRequest req None) with
      | (inl e, evs) => (None, Some e, evs)
      | (inr req', evs) => (Some req', None, evs)
      end
  end.

(** [WithHeader] of the earlier API. *)
Definition WithHeader (key value : string) : RequestOption :=
  fun req =>
    let r := tr_req req in
    (None, mkTRequest
             (mkRequest (Method r) (ReqURL r) (Header_Set (ReqHeader r) key value)
                        (ContentLength r) (ReqBody r) (GetBody r))
             (Trailer req)).

(** [WithAddedTrailer]. *)
Definition WithAddedTrailer (key value : string) : RequestOption :=
  fun req =>
    let trailer := match Trailer req with None => ∅ | Some t => t end in
    (None, mkTRequest (tr_req req) (Some (Header_Add trailer key value))).

(** [WithTrailer]. *)
Definition WithTrailer (key value : string) : RequestOption :=
  fun req =>
    let trailer := match Trailer req with None => ∅ | Some t => t end in
    (None, mkTRequest (tr_req req) (Some (Header_Set trailer key value))).

Context {T V : Type}.
Variable zeroT : T.
Variable json_Marshal : V -> err + string.

(** [WithJSON]: as [WithBodyJSON], without [GetBody]. *)
Definition WithJSON (v : V) : RequestOption :=
  fun req =>
    match json_Marshal v with
    | inl e => (Some e, req)
    | inr body =>
        let r := tr_req req in
        let header :=
          if String.eqb (Header_Get (ReqHeader r) "Content-Type") EmptyString
          then Header_Set (ReqHeader r) "Content-Type" "application/json"
          else ReqHeader r in
        (None, mkTRequest
                 (mkRequest (Method r) (ReqURL r) header
                            (Z.of_nat (String.length body)) (Some body) (GetBody r))
                 (Trailer req))
    end.

(** [Endpoint]. A nil [Client] is [None]. *)
Record Endpoint := mkEndpoint {
  ep_Client : option Client1;
  ep_Method : string;
  ep_URL : string;
  ep_Options : list RequestOption;
  ep_Handlers : list (Handler T)
}.

(** The options [Endpoint.Do] applies: the [switch] over the two lists. *)
Definition mergedOpts (e : Endpoint) (opts : list RequestOption) : list RequestOption :=
  match ep_Options e, opts with
  | [], _ => opts
  | _, [] => ep_Options e
  | _, _ => ep_Options e ++ opts
  end.

(** [Endpoint.Do]: its three results, then the response object as the call
    leaves it (when the client gave one) and the events. The response
    returned is the same object, so it is given in the state the call leaves
    it in. *)
Definition Do (e : Endpoint) (opts : list RequestOption)
  : T * option Response * error * option Response * list DoEvent :=
  match NewRequest (ep_Method e) (ep_URL e) (mergedOpts e opts) with
  | (None, err, evs) => (zeroT, None, err, None, evs)
  | (Some req, _, evs) =>
      let client := match ep_Client e with None => http_DefaultClient | Some c => c end in
      match client req with
      | DoErr resp err => (zeroT, None, Some err, resp, evs ++ [EvSend req])
      | DoOk resp =>
          let '(t, r, err, w, hevs) :=
            Endpoint.Do_dispatch zeroT (ep_Handlers e) (mkWorld zeroT resp) in
          let final := with_body (w_resp w) (snd (Body_Close (RespBody (w_resp w)))) in
          (t, match r with Some _ => Some final | None => None end, err, Some final,
           evs ++ [EvSend req; EvHandlers hevs; EvClose])
      end
  end.

(** [StatusHandler] of the earlier API. *)
Definition StatusHandler (statusCode : Z) (handler : Handler T) : Handler T :=
  fun w =>
    if negb (Z.eqb (StatusCode (w_resp w)) statusCode)
    then (Some (errNew Endpoint.ErrSkipHandler), w, [])
    else handler w.

End NewRequest.

(** Applying every option once, first to last; [None] as soon as one
    fails. *)
Fixpoint run_request_options (opts : list RequestOption) (req : TRequest)
  : option TRequest :=
  match opts with
  | [] => Some req
  | opt :: rest =>
      match opt req with
      | (None, req') => run_request_options rest req'
      | (Some _, _) => None
      end
  end.

End EndpointAPI.

(** ** Query parameters *)

Module NetURL.

(** [url.ishex] and [url.unhex]. *)
Definition ishex (c : ascii) : bool :=
  in_range "0" "9" c || in_range "a" "f" c || in_range "A" "F" c.

Definition unhex (c : ascii) : nat :=
  if in_range "0" "9" c then nat_of_ascii c - 48
  else if in_range "a" "f" c then nat_of_ascii c - 97 + 10
  else if in_range "A" "F" c then nat_of_ascii c - 65 + 10
  else 0.

(** [url.shouldEscape(c, encodeQueryComponent)]. *)
Definition shouldEscapeQuery (c : ascii) : bool :=
  if in_range "a" "z" c || in_range "A" "Z" c || in_range "0" "9" c then false
  else if mem_ascii c "-_.~" then false
  else true.

(** [url.QueryEscape]: a space becomes a plus sign, every other byte that
    must be escaped becomes a percent sign and two hex digits. *)
Fixpoint QueryEscape (s : string) : string :=
  match s with
  | EmptyString => EmptyString
  | String c s' =>
      if Ascii.eqb c " " then String "+" (QueryEscape s')
      else if shouldEscapeQuery c
      then String "%" (String (upperhex (nat_of_ascii c / 16))
                         (String (upperhex (nat_of_ascii c mod 16)) (QueryEscape s')))
      else String c (QueryEscape s')
  end.

(** [url.QueryUnescape], with [None] for its [EscapeError]: a percent sign
    must be followed by two hex digits. *)
Fixpoint QueryUnescape (s : string) : option string :=
  match s with
  | EmptyString => Some EmptyString
  | String c s' =>
      if Ascii.eqb c "%" then
        match s' with
        | String a (String b rest) =>
            if ishex a && ishex b
            then option_map (String (ascii_of_nat (unhex a * 16 + unhex b)))
                   (QueryUnescape rest)
            else None
        | _ => None
        end
      else if Ascii.eqb c "+" then option_map (String " ") (QueryUnescape s')
      else option_map (String c) (QueryUnescape s')
  end.

(** The pieces of [s] between the separators [sep]; a string without
    separator is one piece. *)
Fixpoint split_on (sep : ascii) (s : string) : list string :=
  match s with
  | EmptyString => [EmptyString]
  | String c s' =>
      if Ascii.eqb c sep then EmptyString :: split_on sep s'
      else
        match split_on sep s' with
        | piece :: pieces => String c piece :: pieces
        | [] => [String c EmptyString]
        end
  end.

(** [strings.Cut(s, sep)] for a one-byte separator, without its flag. *)
Fixpoint cut_at (sep : ascii) (s : string) : string * string :=
  match s with
  | EmptyString => (EmptyString, EmptyString)
  | String c s' =>
      if Ascii.eqb c sep then (EmptyString, s')
      else let '(before, after) := cut_at sep s' in (String c before, after)
  end.

(** [url.Values.Add] and [url.Values.Set]. *)
Definition Values_Add (v : gmap string (list string)) (key value : string)
  : gmap string (list string) :=
  <[key := default [] (v !! key) ++ [value]]> v.

Definition Values_Set (v : gmap string (list string)) (key value : string)
  : gmap string (list string) :=
  <[key := [value]]> v.

(** One turn of the loop of [url.parseQuery], on the piece up to the next
    ampersand: a piece with a semicolon, an empty piece and a piece that
    cannot be unescaped are passed over. *)
Definition parse_piece (m : gmap string (list string)) (piece : string)
  : gmap string (list string) :=
  if mem_ascii ";" piece then m
  else if String.eqb piece EmptyString then m
  else
    let '(key, value) := cut_at "=" piece in
    match QueryUnescape key with
    | None => m
    | Some key =>
        match QueryUnescape value with
        | None => m
        | Some value => Values_Add m key value
        end
    end.

(** [URL.Query]: [url.ParseQuery] with its error dropped. *)
Definition Query (rawQuery : string) : gmap string (list string) :=
  fold_left parse_piece (split_on "&" rawQuery) ∅.

(** The order of [slices.Sort] on strings: byte by byte. *)
Definition string_le (a b : string) : Prop := String.leb a b = true.

Global Instance string_le_dec : RelDecision string_le :=
  fun a b => bool_eq_dec (String.leb a b) true.

(** [url.Values.Encode]: the keys in sorted order, each with its values in
    their order, as [key=value] joined by ampersands. *)
Definition Encode (v : gmap string (list string)) : string :=
  let keys := merge_sort string_le (map fst (map_to_list v)) in
  fold_left
    (fun buf k =>
       fold_left
         (fun buf value =>
            (if (0 <? String.length buf)%nat then buf +:+ "&" else buf)
            +:+ QueryEscape k +:+ "=" +:+ QueryEscape value)
         (default [] (v !! k)) buf)
    keys EmptyString.

End NetURL.

(** [WithAddedQueryParam]. *)
Definition WithAddedQueryParam {T : Type} (key value : string) : @FetchOption T :=
  fun ctx =>
    let r := fc_Request ctx in
    let q := NetURL.Query (RawQuery (ReqURL r)) in
    let q := NetURL.Values_Add q key value in
    (None, mkFetchContext (fc_Client ctx)
             (mkRequest (Method r) (mkURL (Path (ReqURL r)) (NetURL.Encode q))
                        (ReqHeader r) (ContentLength r) (ReqBody r) (GetBody r))
             (fc_Handler ctx)).

(** [WithQueryParam]. *)
Definition WithQueryParam {T : Type} (key value : string) : @FetchOption T :=
  fun ctx =>
    let r := fc_Request ctx in
    let q := NetURL.Query (RawQuery (ReqURL r)) in
    let q := NetURL.Values_Set q key value in
    (None, mkFetchContext (fc_Client ctx)
             (mkRequest (Method r) (mkURL (Path (ReqURL r)) (NetURL.Encode q))
                        (ReqHeader r) (ContentLength r) (ReqBody r) (GetBody r))
             (fc_Handler ctx)).

(** What a buffer of [Encode] parses to: nothing yet, or what [Query] reads
    from it. *)
Definition buffer_of (buf : string) (m : gmap string (list string)) : Prop :=
  (buf = EmptyString ∧ m = ∅) ∨ (buf ≠ EmptyString ∧ NetURL.Query buf = m).

(** Adding the values [vs] for the key [k], in order. *)
Definition add_values (m : gmap string (list string)) (k : string) (vs : list string)
  : gmap string (list string) :=
  fold_left (fun m v => NetURL.Values_Add m k v) vs m.

(** Adding, key after key, the values [m] holds for the keys. *)
Definition add_all (m : gmap string (list string)) (keys : list string)
    (m0 : gmap string (list string)) : gmap string (list string) :=
  fold_left (fun m1 k => add_values m1 k (default [] (m !! k))) keys m0.

(** The request of a context with another raw query. *)
Definition with_query {T : Type} (ctx : @fetchContext T) (rawQuery : string)
  : @fetchContext T :=
  let r := fc_Request ctx in
  mkFetchContext (fc_Client ctx)
    (mkRequest (Method r) (mkURL (Path (ReqURL r)) rawQuery) (ReqHeader r)
       (ContentLength r) (ReqBody r) (GetBody r))
    (fc_Handler ctx).

(** ** Further concrete objects for the examples *)

(** A body that was closed before its end and refuses reads since. *)
Definition closedBody : Body :=
  mkBody [Data "rest"] true (Some (otherError "http: read on closed response body")) None.

(** A 204 response without content type. *)
Definition noContentResponse : Response :=
  mkResponse 204 ∅ (mkBody [Data "ignored"] false None None).

(** A client of the earlier API that answers every request with a JSON
    response. *)
Definition exampleClient1 : EndpointAPI.Client1 := fun _ => DoOk jsonResponse.

(** An option of the earlier API that fails. *)
Definition failingRequestOption : EndpointAPI.RequestOption :=
  fun req => (Some (otherError "json: cannot marshal from Go chan int"), req).

(** An endpoint with one option and a handler for status 200. *)
Definition exampleEndpoint : @EndpointAPI.Endpoint nat :=
  EndpointAPI.mkEndpoint None "GET" "/product"
    [EndpointAPI.WithHeader "Accept" "application/json"]
    [EndpointAPI.StatusHandler 200 (counting None)].

(** ** Properties of the handler chain *)

Section ChainProperties.

Context {T : Type}.
Implicit Types (h hs : list (Handler T)) (w : World T).

Lemma HandleResponse_from_spec hs : ∀ i w,
  (∃ pre hk post errs wk e w' evs_pre evs,
      hs = pre ++ hk :: post ∧
      invoke_each i pre w = (errs, wk, evs_pre) ∧
      Forall falls_through errs ∧
      hk wk = (e, w', evs) ∧
      stops e ∧
      HandleResponse_from i hs w = (e, w', evs_pre ++ EvCall (i + length pre) :: evs))
  ∨ (∃ errs w' evs,
      invoke_each i hs w = (errs, w', evs) ∧
      Forall falls_through errs ∧
      HandleResponse_from i hs w = (Some (errNew ErrUnhandledResponse), w', evs)).
Proof.
  induction hs as [|h0 rest IH]; intros i w.
  - right. exists [], w, []. by repeat split.
  - cbn [HandleResponse_from].
    destruct (h0 w) as [[e w1] evs] eqn:Hh0.
    destruct (is_nil e || negb (errors_Is e ErrUnhandledResponse)) eqn:Hstop.
    + left. exists [], h0, rest, [], w, e, w1, [], evs.
      repeat split; auto.
      * unfold stops. destruct e; cbn in *; [right|left]; auto.
        by apply negb_true_iff.
      * cbn. by rewrite Nat.add_0_r.
    + apply orb_false_iff in Hstop as [_ Hft]. apply negb_false_iff in Hft.
      destruct (IH (S i) w1) as
        [(pre & hk & post & errs & wk & e' & w' & evs_pre & evs' &
          -> & Hpre & Hall & Hk & Hst & ->)
        |(errs & w' & evs' & Hall_run & Hall & ->)].
      * left. exists (h0 :: pre), hk, post, (e :: errs), wk, e', w', (EvCall i :: evs ++ evs_pre), evs'.
        repeat split; auto.
        -- cbn. by rewrite Hh0, Hpre.
        -- cbn. rewrite <- app_assoc, Nat.add_succ_r. reflexivity.
      * right. exists (e :: errs), w', (EvCall i :: evs ++ evs').
        repeat split; auto.
        cbn. by rewrite Hh0, Hall_run.
Qed.

(** C1. [HandlerChain.HandleResponse] calls the handlers first to last, each
    on the objects the previous one left. Either the chain stops at a handler
    [hk]: every handler before it returned an error matching
    [ErrUnhandledResponse], [hk] returned nil or an error not matching it,
    that result is returned unchanged, and the events show the calls of index
    0 up to that of [hk] and no later one. Or every handler fell through and
    all were called. *)
Theorem HandlerChain_calls_in_order_until_stop h w :
  (∃ pre hk post errs wk e w' evs_pre evs,
      h = pre ++ hk :: post ∧
      invoke_each 0 pre w = (errs, wk, evs_pre) ∧
      Forall falls_through errs ∧
      hk wk = (e, w', evs) ∧
      stops e ∧
      HandlerChain_HandleResponse h w = (e, w', evs_pre ++ EvCall (length pre) :: evs))
  ∨ (∃ errs w' evs,
      invoke_each 0 h w = (errs, w', evs) ∧
      Forall falls_through errs ∧
      HandlerChain_HandleResponse h w = (Some (errNew ErrUnhandledResponse), w', evs)).
Proof.
  exact (HandleResponse_from_spec h 0%nat w).
Qed.

End ChainProperties.

Section ChainUnhandled.

Context {T : Type}.
Implicit Types (h hs : list (Handler T)) (w : World T).

Lemma falls_through_not_nil (e : error) : falls_through e → is_nil e = false.
Proof. by destruct e. Qed.

Lemma HandleResponse_from_all_fall_through hs : ∀ i w errs w' evs,
  invoke_each i hs w = (errs, w', evs) →
  Forall falls_through errs →
  HandleResponse_from i hs w = (Some (errNew ErrUnhandledResponse), w', evs).
Proof.
  induction hs as [|h0 rest IH]; intros i w errs w' evs Hrun Hall; cbn in *.
  - by inversion Hrun.
  - destruct (h0 w) as [[e w1] evs0].
    destruct (invoke_each (S i) rest w1) as [[es w2] evs2] eqn:Hrest.
    inversion Hrun; subst; clear Hrun.
    apply Forall_cons in Hall as [He Hes].
    rewrite (falls_through_not_nil _ He). unfold falls_through in He. rewrite He. cbn.
    by rewrite (IH _ _ _ _ _ Hrest Hes).
Qed.

(** C9. The empty chain returns [ErrUnhandledResponse]; so does every chain
    whose handlers, called first to last, all return an error matching
    [ErrUnhandledResponse]; and when a chain returns nil, one of its handlers
    returned nil at its call. *)
Theorem HandlerChain_unhandled_unless_handled h w :
  HandlerChain_HandleResponse [] w = (Some (errNew ErrUnhandledResponse), w, [])
  ∧ (∀ errs w' evs,
       invoke_each 0 h w = (errs, w', evs) →
       Forall falls_through errs →
       HandlerChain_HandleResponse h w = (Some (errNew ErrUnhandledResponse), w', evs))
  ∧ (fst (fst (HandlerChain_HandleResponse h w)) = None →
     ∃ pre hk post errs wk w' evs_pre evs,
       h = pre ++ hk :: post ∧
       invoke_each 0 pre w = (errs, wk, evs_pre) ∧
       hk wk = (None, w', evs)).
Proof.
  split; [reflexivity|]. split.
  - intros errs w' evs. apply HandleResponse_from_all_fall_through.
  - intros Hnil.
    destruct (HandleResponse_from_spec h 0%nat w) as
      [(pre & hk & post & errs & wk & e & w' & evs_pre & evs &
        Hh & Hpre & _ & Hk & _ & Hres)
      |(errs & w' & evs & _ & _ & Hres)];
      unfold HandlerChain_HandleResponse in Hnil; rewrite Hres in Hnil; cbn in Hnil.
    + subst e. by exists pre, hk, post, errs, wk, w', evs_pre, evs.
    + discriminate.
Qed.

End ChainUnhandled.

Lemma HandlerChain_unhandled_unless_handled_witness :
  HandlerChain_HandleResponse
    [ErrorHandler (Some (errNew ErrUnhandledResponse));
     ErrorHandler (Some (wrapError "decode" (errNew ErrUnhandledResponse)))] world0
  = (Some (errNew ErrUnhandledResponse), world0, [EvCall 0; EvCall 1])
  ∧ ∃ pre hk post errs wk w' evs_pre evs,
      [ErrorHandler (Some (errNew ErrUnhandledResponse)); ErrorHandler None]
        = pre ++ hk :: post ∧
      invoke_each 0 pre world0 = (errs, wk, evs_pre) ∧
      hk wk = (None, w', evs).
Proof.
  split.
  - apply (proj1 (proj2 (HandlerChain_unhandled_unless_handled _ world0)))
      with (errs := [Some (errNew ErrUnhandledResponse);
                     Some (wrapError "decode" (errNew ErrUnhandledResponse))]).
    + reflexivity.
    + repeat constructor.
  - apply (proj2 (proj2 (HandlerChain_unhandled_unless_handled _ world0))).
    reflexivity.
Defined.

(** ** Conditional handlers *)

Section ConditionalProperties.

Context {T : Type}.
Implicit Types (handler : Handler T) (w : World T).

Lemma strings_Cut_semicolon (s : string) :
  fst (fst (strings_Cut s ";")) = before_semicolon s.
Proof.
  unfold strings_Cut, strings_Index.
  induction s as [|c s IH]; [reflexivity|].
  cbn [String.index before_semicolon String.prefix].
  destruct (Ascii.eqb_spec c ";") as [->|Hne].
  - destruct (ascii_dec ";" ";") as [_|]; [|congruence].
    by destruct s.
  - destruct (ascii_dec ";" c) as [|_]; [congruence|].
    destruct (String.index 0 ";" s) as [i|]; cbn in *.
    + by rewrite IH.
    + by rewrite <- IH.
Qed.

Lemma contentTypeMatches_spec contentType resp :
  contentTypeMatches contentType resp = true ↔ content_type_matches contentType resp.
Proof.
  unfold contentTypeMatches, content_type_matches.
  rewrite strings_Cut_semicolon.
  destruct (String.eqb_spec (Header_Get (RespHeader resp) "Content-Type") contentType).
  - intuition.
  - rewrite String.eqb_eq. intuition.
Qed.

Lemma ConditionalHandler_true cond handler w :
  cond (w_resp w) = true →
  ∃ e w' evs, handler w = (e, w', evs) ∧
              ConditionalHandler cond handler w = (e, w', EvDispatch :: evs).
Proof.
  intros Hc. unfold ConditionalHandler, HandlerFunc. rewrite Hc. cbn.
  destruct (handler w) as [[e w'] evs]. by exists e, w', evs.
Qed.

Lemma ConditionalHandler_false cond handler w :
  cond (w_resp w) = false →
  ConditionalHandler cond handler w = (Some (errNew ErrUnhandledResponse), w, []).
Proof.
  intros Hc. unfold ConditionalHandler, HandlerFunc. by rewrite Hc.
Qed.

(** C3. The handler made by [ContentTypeHandler] calls the wrapped handler,
    and returns what it returns, exactly when the Content-Type header of the
    response equals the given content type as it is or once cut at its first
    semicolon; otherwise it returns [ErrUnhandledResponse], calls nothing and
    leaves every object as it was. *)
Theorem ContentTypeHandler_dispatches_iff_match contentType handler w :
  (content_type_matches contentType (w_resp w) →
     ∃ e w' evs, handler w = (e, w', evs) ∧
       ContentTypeHandler contentType handler w = (e, w', EvDispatch :: evs))
  ∧ (¬ content_type_matches contentType (w_resp w) →
     ContentTypeHandler contentType handler w
       = (Some (errNew ErrUnhandledResponse), w, [])).
Proof.
  split; intros Hm.
  - apply ConditionalHandler_true. by apply contentTypeMatches_spec.
  - apply ConditionalHandler_false.
    destruct (contentTypeMatches contentType (w_resp w)) eqn:Hc; [|done].
    by apply contentTypeMatches_spec in Hc.
Qed.

(** C5. The handler made by [StatusHandler] calls the wrapped handler, and
    returns what it returns, exactly when the status code of the response is
    the given one; otherwise it returns [ErrUnhandledResponse], calls nothing
    and leaves every object as it was. *)
Theorem StatusHandler_dispatches_iff_status (statusCode : Z) handler w :
  (StatusCode (w_resp w) = statusCode →
     ∃ e w' evs, handler w = (e, w', evs) ∧
       StatusHandler statusCode handler w = (e, w', EvDispatch :: evs))
  ∧ (StatusCode (w_resp w) ≠ statusCode →
     StatusHandler statusCode handler w
       = (Some (errNew ErrUnhandledResponse), w, [])).
Proof.
  split; intros Hs.
  - apply ConditionalHandler_true. by apply Z.eqb_eq.
  - apply ConditionalHandler_false. by apply Z.eqb_neq.
Qed.

End ConditionalProperties.

Lemma ContentTypeHandler_dispatches_iff_match_witness :
  (∃ e w' evs, ErrorHandler None (mkWorld 0%nat jsonResponse) = (e, w', evs) ∧
     ContentTypeHandler "application/json" (ErrorHandler None) (mkWorld 0%nat jsonResponse)
       = (e, w', EvDispatch :: evs))
  ∧ ContentTypeHandler "application/xml" (ErrorHandler None) (mkWorld 0%nat jsonResponse)
       = (Some (errNew ErrUnhandledResponse), mkWorld 0%nat jsonResponse, []).
Proof.
  split.
  - apply (proj1 (ContentTypeHandler_dispatches_iff_match
                    "application/json" (ErrorHandler None) (mkWorld 0%nat jsonResponse))).
    right. reflexivity.
  - apply (proj2 (ContentTypeHandler_dispatches_iff_match
                    "application/xml" (ErrorHandler None) (mkWorld 0%nat jsonResponse))).
    intros [H|H]; vm_compute in H; discriminate.
Defined.

Lemma StatusHandler_dispatches_iff_status_witness :
  (∃ e w' evs, ErrorHandler None world0 = (e, w', evs) ∧
     StatusHandler 200 (ErrorHandler None) world0 = (e, w', EvDispatch :: evs))
  ∧ StatusHandler 201 (ErrorHandler None) world0
       = (Some (errNew ErrUnhandledResponse), world0, []).
Proof.
  split.
  - apply (proj1 (StatusHandler_dispatches_iff_status 200 (ErrorHandler None) world0)).
    reflexivity.
  - apply (proj2 (StatusHandler_dispatches_iff_status 201 (ErrorHandler None) world0)).
    cbn. lia.
Defined.

(** ** The problem handler *)

Section ProblemProperties.

Context {T : Type}.
Variable problem_ContentType : string.
Variable problem_From : Response -> option Details * error * Response.

Lemma deferred_Close_closes (r : error * World T * list Event) :
  closed (RespBody (w_resp (snd (fst (deferred_Close r))))) = true.
Proof. by destruct r as [[e w] evs]. Qed.

Lemma deferred_Close_keeps_error (e : err) (w : World T) evs :
  fst (fst (deferred_Close (Some e, w, evs))) = Some e.
Proof.
  unfold deferred_Close. cbn. by destruct (close_err (RespBody (w_resp w))).
Qed.

(** C4. [ProblemHandler] decides by the content type alone. On a response
    whose Content-Type does not match [problem.ContentType] it returns
    [ErrUnhandledResponse] and leaves every object, the body included, as it
    was. On a response that matches it returns a non-nil error, which is the
    error of [problem.From] when there is one and the decoded details
    otherwise, and the body is closed when it returns. *)
Theorem ProblemHandler_by_content_type (w : World T) :
  (¬ content_type_matches problem_ContentType (w_resp w) →
     ProblemHandler problem_ContentType problem_From w
       = (Some (errNew ErrUnhandledResponse), w, []))
  ∧ (content_type_matches problem_ContentType (w_resp w) →
     ∃ e w' evs,
       ProblemHandler problem_ContentType problem_From w = (Some e, w', evs)
       ∧ closed (RespBody (w_resp w')) = true
       ∧ match problem_From (w_resp w) with
         | (_, Some decodeErr, _) => e = decodeErr
         | (details, None, _) => e = detailsError details
         end).
Proof.
  unfold ProblemHandler, ContentTypeHandler. split; intros Hm.
  - apply ConditionalHandler_false.
    destruct (contentTypeMatches problem_ContentType (w_resp w)) eqn:Hc; [|done].
    by apply contentTypeMatches_spec in Hc.
  - apply contentTypeMatches_spec in Hm.
    unfold ConditionalHandler, HandlerFunc. rewrite Hm. cbn [negb].
    destruct (problem_From (w_resp w)) as [[details derr] resp1].
    set (inner := if negb (is_nil derr) then _ else _).
    assert (Hinner : ∃ e w1, inner = (Some e, w1, []) ∧
              match derr with Some decodeErr => e = decodeErr
                            | None => e = detailsError details end).
    { subst inner. destruct derr as [d|]; cbn; eauto. }
    destruct Hinner as (e & w1 & -> & He).
    pose proof (deferred_Close_keeps_error e w1 []) as Hk.
    pose proof (deferred_Close_closes (Some e, w1, [])) as Hc.
    destruct (deferred_Close (Some e, w1, [])) as [[e2 w2] evs2]. cbn in Hk, Hc.
    subst e2. exists e, w2, (EvDispatch :: evs2).
    split; [reflexivity|]. split; [exact Hc|].
    by destruct derr.
Qed.

End ProblemProperties.

Lemma ProblemHandler_by_content_type_witness :
  ProblemHandler "application/problem+json" exampleFrom (mkWorld 0%nat jsonResponse)
    = (Some (errNew ErrUnhandledResponse), mkWorld 0%nat jsonResponse, [])
  ∧ ∃ e w' evs,
      ProblemHandler "application/problem+json" exampleFrom (mkWorld 0%nat problemResponse)
        = (Some e, w', evs)
      ∧ closed (RespBody (w_resp w')) = true
      ∧ e = detailsError (Some (mkDetails "some problem")).
Proof.
  split.
  - apply (proj1 (ProblemHandler_by_content_type
                    "application/problem+json" exampleFrom (mkWorld 0%nat jsonResponse))).
    intros [H|H]; vm_compute in H; discriminate.
  - apply (proj2 (ProblemHandler_by_content_type
                    "application/problem+json" exampleFrom (mkWorld 0%nat problemResponse))).
    left. reflexivity.
Defined.

(** ** Fetch *)

Section FetchProperties.

Context {T : Type}.
Variable zeroT : T.
Variable problem_ContentType : string.
Variable problem_From : Response -> option Details * error * Response.
Variable json_UnmarshalRead : Body -> T -> error * Body * T.
Variable xml_Decode : bool -> Body -> T -> error * Body * T.
Variable http_NewRequestWithContext : string -> string -> err + Request.
Variable http_DefaultClient : Client.

Let fetchWithResponse :=
  FetchWithResponse zeroT problem_ContentType problem_From json_UnmarshalRead
    xml_Decode http_NewRequestWithContext http_DefaultClient.
Let fetch :=
  Fetch zeroT problem_ContentType problem_From json_UnmarshalRead
    xml_Decode http_NewRequestWithContext http_DefaultClient.
Let defaultHandlers : HandlerChain T :=
  DefaultHandlers problem_ContentType problem_From json_UnmarshalRead xml_Decode.

Lemma apply_options_spec (opts : list (@FetchOption T)) : ∀ i ctx,
  (∃ pre opt post ctx_k e ctx',
      opts = pre ++ opt :: post ∧
      run_options pre ctx = Some ctx_k ∧
      opt ctx_k = (Some e, ctx') ∧
      apply_options i opts ctx = (inl e, map EvOption (seq i (S (length pre)))))
  ∨ (∃ ctx_n,
      run_options opts ctx = Some ctx_n ∧
      apply_options i opts ctx = (inr ctx_n, map EvOption (seq i (length opts)))).
Proof.
  induction opts as [|opt rest IH]; intros i ctx.
  - right. by exists ctx.
  - cbn [apply_options run_options].
    destruct (opt ctx) as [[e|] ctx1] eqn:Hopt.
    + left. exists [], opt, rest, ctx, e, ctx1. by repeat split.
    + destruct (IH (S i) ctx1) as
        [(pre & o & post & ctx_k & e & ctx' & -> & Hpre & Ho & ->)
        |(ctx_n & Hrun & ->)].
      * left. exists (opt :: pre), o, post, ctx_k, e, ctx'.
        repeat split; auto. cbn. by rewrite Hopt.
      * right. by exists ctx_n.
Qed.

(** An option that fails after others that succeed ends [run_options]. *)
Lemma run_options_failing (pre post : list (@FetchOption T)) opt ctx ctx_k e ctx' :
  run_options pre ctx = Some ctx_k →
  opt ctx_k = (Some e, ctx') →
  run_options (pre ++ opt :: post) ctx = None.
Proof.
  revert ctx. induction pre as [|o pre IH]; intros ctx Hpre Hopt; cbn in *.
  - injection Hpre as ->. by rewrite Hopt.
  - destruct (o ctx) as [[x|] c1]; [discriminate|]. by apply IH.
Qed.

(** When every option succeeds, [FetchWithResponse] is the options run in
    order and then the sending and handling of the request they left,
    through the client and with the handler they left. *)
Lemma FetchWithResponse_after_options method url opts req ctx net :
  http_NewRequestWithContext method url = inr req →
  run_options opts
    (mkFetchContext http_DefaultClient req (HandlerChain_HandleResponse defaultHandlers))
    = Some ctx →
  fetchWithResponse method url opts net
  = let '(t, resp, e, evs, net') :=
      send_and_handle zeroT (fc_Client ctx) (fc_Handler ctx) (fc_Request ctx) net in
    (t, resp, e, map EvOption (seq 0 (length opts)) ++ evs, net').
Proof.
  intros Hreq Hrun. subst fetchWithResponse. unfold FetchWithResponse. rewrite Hreq.
  fold defaultHandlers.
  destruct (apply_options_spec opts 0%nat
              (mkFetchContext http_DefaultClient req
                 (HandlerChain_HandleResponse defaultHandlers))) as
    [(pre & opt & post & ctx_k & e & ctx' & Hopts & Hpre & Hopt & _)
    |(ctx_n & Hrun' & ->)].
  - exfalso. subst opts. by rewrite (run_options_failing _ _ _ _ _ _ _ Hpre Hopt) in Hrun.
  - rewrite Hrun in Hrun'. injection Hrun' as <-.
    unfold send_and_handle.
    destruct (fc_Client ctx (fc_Request ctx) net) as [[resp|resp e] net']; [|reflexivity].
    cbn [fst snd].
    destruct (fc_Handler ctx (mkWorld zeroT resp)) as [[e w] hevs].
    by destruct (negb (is_nil e)).
Qed.

(** What [send_and_handle] writes to the events: the call of the client with
    the request it was given comes first, and no option is applied after
    it. *)
Lemma send_and_handle_events (client : Client) (handler : Handler T) req net :
  ∃ rest,
    snd (fst (send_and_handle zeroT client handler req net)) = EvDo req :: rest
    ∧ Forall (λ ev, ∀ i, ev ≠ EvOption i) rest.
Proof.
  unfold send_and_handle.
  destruct (fst (client req net)) as [resp|resp e].
  - destruct (handler (mkWorld zeroT resp)) as [[e w] hevs].
    destruct (negb (is_nil e)); eexists; (split; [reflexivity|]);
      repeat constructor; discriminate.
  - eexists. split; [reflexivity|]. constructor.
Qed.

(** C6. Once the request exists, [FetchWithResponse] (and [Fetch] through it)
    applies the options first to last, each to the context the previous one
    left. If an option returns an error, that error is returned with a nil
    response and the zero value, the options after it have no part in the
    result, and the client is not called: the network is left as it was.
    Otherwise every option has been applied when the client is called: its
    [Do] is called once, with the request the options left and on the
    network as it was before the call, and what the call returns and the
    network are what that one call, followed by the handler the options
    left, gives. *)
Theorem Fetch_applies_options_before_dispatch method url opts req net :
  http_NewRequestWithContext method url = inr req →
  let ctx0 :=
    mkFetchContext http_DefaultClient req (HandlerChain_HandleResponse defaultHandlers) in
  (∃ pre opt post ctx_k e ctx',
      opts = pre ++ opt :: post ∧
      run_options pre ctx0 = Some ctx_k ∧
      opt ctx_k = (Some e, ctx') ∧
      fetchWithResponse method url opts net
        = (zeroT, None, Some e, map EvOption (seq 0 (S (length pre))), net) ∧
      fetch method url opts net
        = (zeroT, Some e, None, map EvOption (seq 0 (S (length pre))), net))
  ∨ (∃ ctx_n t resp e evs net',
      run_options opts ctx0 = Some ctx_n ∧
      send_and_handle zeroT (fc_Client ctx_n) (fc_Handler ctx_n) (fc_Request ctx_n) net
        = (t, resp, e, evs, net') ∧
      net' = snd (fc_Client ctx_n (fc_Request ctx_n) net) ∧
      (∃ rest, evs = EvDo (fc_Request ctx_n) :: rest
               ∧ Forall (λ ev, ∀ i, ev ≠ EvOption i) rest) ∧
      fetchWithResponse method url opts net
        = (t, resp, e, map EvOption (seq 0 (length opts)) ++ evs, net') ∧
      fetch method url opts net
        = (t, e, option_map (λ r, snd (discardBody r)) resp,
           map EvOption (seq 0 (length opts)) ++ evs
             ++ match resp with Some _ => [EvDiscard] | None => [] end,
           net')).
Proof.
  intros Hreq ctx0.
  destruct (apply_options_spec opts 0%nat ctx0) as
    [(pre & opt & post & ctx_k & e & ctx' & Hopts & Hpre & Hopt & Happ)
    |(ctx_n & Hrun & _)].
  - left. exists pre, opt, post, ctx_k, e, ctx'.
    subst fetch fetchWithResponse. unfold Fetch, FetchWithResponse. rewrite Hreq.
    fold defaultHandlers. fold ctx0. rewrite Happ. by repeat split.
  - right.
    pose proof (FetchWithResponse_after_options method url opts req ctx_n net Hreq Hrun)
      as Hfetch.
    destruct (send_and_handle_events (fc_Client ctx_n) (fc_Handler ctx_n)
                (fc_Request ctx_n) net) as (rest & Hevs & Hrest).
    assert (Hnet : snd (send_and_handle zeroT (fc_Client ctx_n) (fc_Handler ctx_n)
                          (fc_Request ctx_n) net)
                   = snd (fc_Client ctx_n (fc_Request ctx_n) net)).
    { unfold send_and_handle.
      destruct (fst (fc_Client ctx_n (fc_Request ctx_n) net)) as [r|r x]; [|reflexivity].
      destruct (fc_Handler ctx_n (mkWorld zeroT r)) as [[he w] hevs].
      by destruct (negb (is_nil he)). }
    remember (send_and_handle zeroT (fc_Client ctx_n) (fc_Handler ctx_n)
                (fc_Request ctx_n) net) as sent eqn:Hsent.
    destruct sent as [[[[t resp] e] evs] net'].
    cbn [fst snd] in Hevs, Hnet.
    exists ctx_n, t, resp, e, evs, net'.
    split; [exact Hrun|]. split; [by symmetry|]. split; [by symmetry|].
    split; [by exists rest|]. split; [exact Hfetch|].
    subst fetch. unfold Fetch.
    change (FetchWithResponse zeroT problem_ContentType problem_From json_UnmarshalRead
              xml_Decode http_NewRequestWithContext http_DefaultClient)
      with fetchWithResponse.
    rewrite Hfetch.
    destruct resp as [r|]; cbn [option_map].
    + destruct (discardBody r) as [de r']. cbn [snd]. by rewrite <- app_assoc.
    + by rewrite app_nil_r.
Qed.

(** C7 as the code has it. When [Fetch] obtained a response, with or without
    an error, [discardBody] has run on it as the last step: the body was read
    until EOF or the first read error and then closed. So the body is closed
    when [Fetch] returns, and it is drained whenever that reading met no
    error. *)
Theorem Fetch_discards_and_closes_body method url opts net t e r evs net' :
  fetch method url opts net = (t, e, Some r, evs, net') →
  ∃ r0 evs0,
    fetchWithResponse method url opts net = (t, Some r0, e, evs0, net')
    ∧ evs = evs0 ++ [EvDiscard]
    ∧ RespBody r = snd (Body_Close (snd (io_Copy_Discard (RespBody r0))))
    ∧ closed (RespBody r) = true
    ∧ (fst (io_Copy_Discard (RespBody r0)) = None → drained (RespBody r)).
Proof.
  subst fetch fetchWithResponse. unfold Fetch.
  destruct (FetchWithResponse _ _ _ _ _ _ _ method url opts net)
    as [[[[t0 resp] e0] evs0] net0].
  destruct resp as [r0|]; [|discriminate].
  unfold discardBody.
  destruct (io_Copy_Discard (RespBody r0)) as [ce b] eqn:Hcopy. cbn.
  intros [= <- <- <- <- <-].
  exists r0, evs0. repeat split; rewrite ?Hcopy; [reflexivity|].
  cbn. intros ->. unfold drained. cbn.
  unfold io_Copy_Discard in Hcopy.
  assert (Hcd : ∀ p p', copy_discard p = (None, p') → p' = []).
  { induction p as [|[d|x] p IH]; cbn; intros p' H; [by inversion H|eauto|discriminate]. }
  destruct (closed (RespBody r0)), (closed_read (RespBody r0));
    try discriminate;
    destruct (copy_discard (pending (RespBody r0))) as [ce' p'] eqn:Hp;
    inversion Hcopy; subst; cbn; eapply Hcd; eassumption.
Qed.

End FetchProperties.

Lemma Fetch_applies_options_before_dispatch_witness :
  let opts : list (@FetchOption nat) :=
    [WithHeader "Accept" "application/json"; failingOption; WithHeader "X-Late" "1"] in
  let fetchWithResponse :=
    FetchWithResponse 0%nat "application/problem+json" exampleFrom exampleUnmarshal
      exampleDecode exampleRequest exampleClient in
  let fetch :=
    Fetch 0%nat "application/problem+json" exampleFrom exampleUnmarshal
      exampleDecode exampleRequest exampleClient in
  let ctx0 :=
    mkFetchContext exampleClient (mkRequest "GET" (mkURL "/info" EmptyString) ∅ 0 None None)
      (HandlerChain_HandleResponse
         (DefaultHandlers "application/problem+json" exampleFrom exampleUnmarshal
            exampleDecode)) in
  (∃ pre opt post ctx_k e ctx',
      opts = pre ++ opt :: post ∧
      run_options pre ctx0 = Some ctx_k ∧
      opt ctx_k = (Some e, ctx') ∧
      fetchWithResponse "GET" "/info" opts []
        = (0%nat, None, Some e, map EvOption (seq 0 (S (length pre))), []) ∧
      fetch "GET" "/info" opts []
        = (0%nat, Some e, None, map EvOption (seq 0 (S (length pre))), []))
  ∨ (∃ ctx_n t resp e evs net',
      run_options opts ctx0 = Some ctx_n ∧
      send_and_handle 0%nat (fc_Client ctx_n) (fc_Handler ctx_n) (fc_Request ctx_n) []
        = (t, resp, e, evs, net') ∧
      net' = snd (fc_Client ctx_n (fc_Request ctx_n) []) ∧
      (∃ rest, evs = EvDo (fc_Request ctx_n) :: rest
               ∧ Forall (λ ev, ∀ i, ev ≠ EvOption i) rest) ∧
      fetchWithResponse "GET" "/info" opts []
        = (t, resp, e, map EvOption (seq 0 (length opts)) ++ evs, net') ∧
      fetch "GET" "/info" opts []
        = (t, e, option_map (λ r, snd (discardBody r)) resp,
           map EvOption (seq 0 (length opts)) ++ evs
             ++ match resp with Some _ => [EvDiscard] | None => [] end,
           net')).
Proof.
  intros opts fetchWithResponse fetch ctx0.
  apply (Fetch_applies_options_before_dispatch 0%nat "application/problem+json"
           exampleFrom exampleUnmarshal exampleDecode exampleRequest exampleClient
           "GET" "/info" opts (mkRequest "GET" (mkURL "/info" EmptyString) ∅ 0 None None) []).
  reflexivity.
Defined.

(** With a failing option in the middle the first branch is the one taken:
    two options are applied, the client is not called and the network is
    left as it was. *)
Example Fetch_failing_option :
  FetchWithResponse 0%nat "application/problem+json" exampleFrom exampleUnmarshal
    exampleDecode exampleRequest exampleClient "GET" "/info"
    [WithHeader "Accept" "application/json"; failingOption; WithHeader "X-Late" "1"] []
  = (0%nat, None, Some (otherError "json: cannot marshal from Go chan int"),
     [EvOption 0; EvOption 1], []).
Proof. reflexivity. Qed.

(** With options that succeed the second branch is taken: the request that
    reaches the network carries the headers both options set. *)
Example Fetch_options_reach_the_network :
  snd (FetchWithResponse 0%nat "application/problem+json" exampleFrom exampleUnmarshal
         exampleDecode exampleRequest exampleClient "GET" "/info"
         [WithHeader "Accept" "application/json"; WithHeader "X-Late" "1"] [])
  = [mkRequest "GET" (mkURL "/info" EmptyString)
       (<["X-Late" := ["1"]]> (<["Accept" := ["application/json"]]> ∅)) 0 None None].
Proof. reflexivity. Qed.

Lemma Fetch_discards_and_closes_body_witness :
  ∃ t e r evs net',
    Fetch 0%nat "application/problem+json" exampleFrom exampleUnmarshal
      exampleDecode exampleRequest exampleClient "GET" "/info" [] [] = (t, e, Some r, evs, net')
    ∧ ∃ r0 evs0,
        FetchWithResponse 0%nat "application/problem+json" exampleFrom exampleUnmarshal
          exampleDecode exampleRequest exampleClient "GET" "/info" [] []
          = (t, Some r0, e, evs0, net')
        ∧ evs = evs0 ++ [EvDiscard]
        ∧ RespBody r = snd (Body_Close (snd (io_Copy_Discard (RespBody r0))))
        ∧ closed (RespBody r) = true
        ∧ (fst (io_Copy_Discard (RespBody r0)) = None → drained (RespBody r)).
Proof.
  do 5 eexists. split; [reflexivity|].
  apply (Fetch_discards_and_closes_body 0%nat "application/problem+json" exampleFrom
           exampleUnmarshal exampleDecode exampleRequest exampleClient "GET" "/info" [] []).
  reflexivity.
Defined.

(** C7 as stated fails: a body whose reading is interrupted by an error is
    closed but not drained when [Fetch] returns. *)
Lemma Fetch_body_not_always_drained :
  Fetch 0%nat "application/problem+json" exampleFrom exampleUnmarshal
    exampleDecode exampleRequest interruptedClient "GET" "/info" [] []
  = (0%nat, Some (errNew ErrUnhandledResponse),
     Some (mkResponse 200 ∅ (mkBody [Data "b"] true None None)),
     [EvDo (mkRequest "GET" (mkURL "/info" EmptyString) ∅ 0 None None);
      EvHandle [EvCall 0; EvCall 1; EvCall 2; EvCall 3; EvCall 4];
      EvDiscard],
     [mkRequest "GET" (mkURL "/info" EmptyString) ∅ 0 None None])
  ∧ ¬ drained (mkBody [Data "b"] true None None).
Proof.
  split; [reflexivity|]. unfold drained. cbn. discriminate.
Qed.

(** ** WithBodyJSON *)

Section BodyJSONProperties.

Context {T V : Type}.
Variable json_Marshal : V -> err + string.

Lemma canonical_Content_Type : CanonicalMIMEHeaderKey "Content-Type" = "Content-Type".
Proof. reflexivity. Qed.

Lemma Header_Get_empty_iff (h : gmap string (list string)) :
  Header_Get h "Content-Type" = EmptyString ↔ content_type_first_value_empty h.
Proof.
  unfold Header_Get, content_type_first_value_empty. rewrite canonical_Content_Type.
  destruct (h !! "Content-Type") as [[|v vs]|]; split; intros H.
  - right; left; reflexivity.
  - reflexivity.
  - subst v. right; right. by exists vs.
  - destruct H as [H|[H|[vs' H]]]; congruence.
  - by left.
  - reflexivity.
Qed.

(** A header that is unset or empty in the words of the claim is one that
    [Header.Get] finds empty; the converse fails when values follow an empty
    first value. *)
Lemma unset_or_empty_first_value_empty (h : gmap string (list string)) :
  content_type_unset_or_empty h → content_type_first_value_empty h.
Proof.
  unfold content_type_unset_or_empty, content_type_first_value_empty, existing_content_type.
  intros H. destruct (h !! "Content-Type") as [[|v vs]|] eqn:Hh; [by right; left| |by left].
  right; right. exists vs. do 2 f_equal.
  destruct (String.eqb_spec v EmptyString) as [He|Hne]; [exact He|].
  exfalso. apply (H v). split; [exact Hne|]. exists (v :: vs). split; [reflexivity|].
  apply list_elem_of_here.
Qed.

(** C10 as the code has it. When the value can be marshalled, the option made
    by [WithBodyJSON] returns nil and sets the body, [ContentLength] and
    [GetBody] from the encoded bytes whatever the headers are. It sets
    Content-Type to [application/json] only when that header is unset or its
    first value is empty on entry; it then replaces every value of the
    header and touches no other header. A Content-Type whose first value is
    not empty is left with all headers as they were. The method, the URL,
    the client and the handler are not touched. *)
Theorem WithBodyJSON_sets_content_type_iff_first_value_empty (v : V) (body : string)
    (ctx : @fetchContext T) :
  json_Marshal v = inr body →
  ∃ ctx',
    WithBodyJSON json_Marshal v ctx = (None, ctx')
    ∧ ReqBody (fc_Request ctx') = Some body
    ∧ ContentLength (fc_Request ctx') = Z.of_nat (String.length body)
    ∧ GetBody (fc_Request ctx') = Some body
    ∧ (content_type_first_value_empty (ReqHeader (fc_Request ctx)) →
         ReqHeader (fc_Request ctx') !! "Content-Type" = Some ["application/json"]
         ∧ ∀ key, key ≠ "Content-Type" →
             ReqHeader (fc_Request ctx') !! key = ReqHeader (fc_Request ctx) !! key)
    ∧ (¬ content_type_first_value_empty (ReqHeader (fc_Request ctx)) →
         ReqHeader (fc_Request ctx') = ReqHeader (fc_Request ctx))
    ∧ Method (fc_Request ctx') = Method (fc_Request ctx)
    ∧ ReqURL (fc_Request ctx') = ReqURL (fc_Request ctx)
    ∧ fc_Client ctx' = fc_Client ctx
    ∧ fc_Handler ctx' = fc_Handler ctx.
Proof.
  intros Hm. unfold WithBodyJSON. rewrite Hm.
  eexists. split; [reflexivity|]. cbn.
  repeat split; try reflexivity.
  - apply Header_Get_empty_iff in H. rewrite H. cbn.
    unfold Header_Set. rewrite canonical_Content_Type. apply lookup_insert_eq.
  - intros key Hkey. apply Header_Get_empty_iff in H. rewrite H. cbn.
    unfold Header_Set. rewrite canonical_Content_Type. by apply lookup_insert_ne.
  - intros Hset.
    destruct (String.eqb_spec (Header_Get (ReqHeader (fc_Request ctx)) "Content-Type")
                EmptyString) as [He|Hne]; [|reflexivity].
    by apply Header_Get_empty_iff in He.
Qed.

(** When the value cannot be marshalled the option returns that error and
    changes nothing. *)
Lemma WithBodyJSON_marshal_error (v : V) (e : err) (ctx : @fetchContext T) :
  json_Marshal v = inl e → WithBodyJSON json_Marshal v ctx = (Some e, ctx).
Proof. intros Hm. unfold WithBodyJSON. by rewrite Hm. Qed.

End BodyJSONProperties.

Lemma WithBodyJSON_sets_content_type_iff_first_value_empty_witness :
  ∃ ctx',
    WithBodyJSON exampleMarshal 1%nat exampleContext = (None, ctx')
    ∧ ReqBody (fc_Request ctx') = Some "{}"
    ∧ ContentLength (fc_Request ctx') = Z.of_nat (String.length "{}")
    ∧ GetBody (fc_Request ctx') = Some "{}"
    ∧ (content_type_first_value_empty (ReqHeader (fc_Request exampleContext)) →
         ReqHeader (fc_Request ctx') !! "Content-Type" = Some ["application/json"]
         ∧ ∀ key, key ≠ "Content-Type" →
             ReqHeader (fc_Request ctx') !! key
             = ReqHeader (fc_Request exampleContext) !! key)
    ∧ (¬ content_type_first_value_empty (ReqHeader (fc_Request exampleContext)) →
         ReqHeader (fc_Request ctx') = ReqHeader (fc_Request exampleContext))
    ∧ Method (fc_Request ctx') = Method (fc_Request exampleContext)
    ∧ ReqURL (fc_Request ctx') = ReqURL (fc_Request exampleContext)
    ∧ fc_Client ctx' = fc_Client exampleContext
    ∧ fc_Handler ctx' = fc_Handler exampleContext.
Proof.
  apply (WithBodyJSON_sets_content_type_iff_first_value_empty exampleMarshal 1%nat "{}"
           exampleContext).
  reflexivity.
Defined.

(** C10 as stated fails. [WithHeader] with an empty value followed by
    [WithAddedHeader] leaves the Content-Type values [""] and ["text/y"]: the
    header is neither unset nor empty and ["text/y"] is an existing
    non-empty value of it. [Header.Get] reads the first value only, so
    [WithBodyJSON] sets the header all the same and ["text/y"] is gone. *)
Lemma WithBodyJSON_replaces_content_type_after_empty_value :
  let ctx : @fetchContext nat :=
    snd (WithAddedHeader "Content-Type" "text/y"
           (snd (WithHeader "Content-Type" EmptyString exampleContext))) in
  let ctx' := snd (WithBodyJSON exampleMarshal 1%nat ctx) in
  ReqHeader (fc_Request ctx) !! "Content-Type" = Some [EmptyString; "text/y"]
  ∧ existing_content_type (ReqHeader (fc_Request ctx)) "text/y"
  ∧ ¬ content_type_unset_or_empty (ReqHeader (fc_Request ctx))
  ∧ fst (WithBodyJSON exampleMarshal 1%nat ctx) = None
  ∧ ReqHeader (fc_Request ctx') !! "Content-Type" = Some ["application/json"]
  ∧ ¬ existing_content_type (ReqHeader (fc_Request ctx')) "text/y".
Proof.
  intros ctx ctx'.
  assert (Hold : ReqHeader (fc_Request ctx) !! "Content-Type"
                 = Some [EmptyString; "text/y"]) by reflexivity.
  assert (Hnew : ReqHeader (fc_Request ctx') !! "Content-Type"
                 = Some ["application/json"]) by reflexivity.
  assert (Hex : existing_content_type (ReqHeader (fc_Request ctx)) "text/y").
  { split; [discriminate|]. exists [EmptyString; "text/y"]. split; [exact Hold|].
    apply list_elem_of_further, list_elem_of_here. }
  split; [exact Hold|]. split; [exact Hex|].
  split; [intros H; exact (H "text/y" Hex)|].
  split; [reflexivity|]. split; [exact Hnew|].
  intros (_ & vs & Hvs & Hin). rewrite Hnew in Hvs. injection Hvs as <-.
  apply list_elem_of_singleton in Hin. discriminate.
Qed.

(** The two cases of the repository's tests: no Content-Type on entry, and a
    custom one set by [WithHeader] before. *)
Example WithBodyJSON_default_content_type :
  ReqHeader (fc_Request (snd (WithBodyJSON exampleMarshal 1%nat exampleContext)))
  = {[ "Content-Type" := ["application/json"] ]}.
Proof. reflexivity. Qed.

Example WithBodyJSON_custom_content_type :
  ReqHeader (fc_Request (snd (WithBodyJSON exampleMarshal 1%nat
     (snd (WithHeader "Content-Type" "application/my-content-type" exampleContext)))))
  = {[ "Content-Type" := ["application/my-content-type"] ]}.
Proof. reflexivity. Qed.

(** ** The two handler loops *)

Section DispatchEquivalence.

Import Endpoint.

Context {T : Type}.
Variable zeroT : T.

Lemma errors_is_rename : ∀ e : err,
  errors_is (rename e) ErrSkipHandler = errors_is e ErrUnhandledResponse.
Proof.
  fix IH 1. intros [[id text]|msg inner|errs|u n v|p|msg]; cbn; try reflexivity.
  - by destruct id as [[p|p|]|p|].
  - apply IH.
  - induction errs as [|x l IHl]; [reflexivity|].
    rewrite IH. f_equal. exact IHl.
Qed.

Lemma handlers_loop_matches_chain (hs : list (Handler T)) : ∀ i w,
  handlers_loop i (map rename_handler hs) w
  = let '(e, w1, evs) := HandleResponse_from i hs w in (exit_of e, w1, evs).
Proof.
  induction hs as [|h0 rest IH]; intros i w; [reflexivity|].
  cbn [map handlers_loop HandleResponse_from]. unfold rename_handler at 1.
  destruct (h0 w) as [[[x|] w1] evs0]; [|reflexivity].
  cbn [rename_error is_nil orb errors_Is]. rewrite errors_is_rename.
  destruct (errors_is x ErrUnhandledResponse) eqn:Hx; cbn [negb].
  - rewrite IH. by destruct (HandleResponse_from (S i) rest w1) as [[e w2] evs2].
  - unfold exit_of. cbn. by rewrite Hx.
Qed.

(** C8. Under the renaming of the fall-through signal, the loop of
    [Endpoint.Do] and [HandlerChain.HandleResponse] do the same on every list
    of handlers, destination and response: they leave the same objects and
    emit the same calls in the same order, hence stop at the same handler;
    the error of one is the renamed error of the other, [ErrNotHandled]
    standing for the [ErrUnhandledResponse] of an exhausted chain; and [Do]
    returns the value and the response exactly when the chain returns nil. *)
Theorem Endpoint_Do_dispatch_matches_HandlerChain (hs : list (Handler T)) (w : World T) :
  Do_dispatch zeroT (map rename_handler hs) w
  = let '(e, w1, evs) := HandlerChain_HandleResponse hs w in
    (if is_nil e then w_dst w1 else zeroT,
     if is_nil e then Some (w_resp w1) else None,
     rename_result e, w1, evs).
Proof.
  unfold Do_dispatch, HandlerChain_HandleResponse.
  rewrite handlers_loop_matches_chain.
  destruct (HandleResponse_from 0 hs w) as [[e w1] evs].
  unfold exit_of, rename_result.
  destruct e as [x|]; cbn; [|reflexivity].
  by destruct (errors_is x ErrUnhandledResponse).
Qed.

(** A chain's error matches [ErrUnhandledResponse] only when the chain is
    exhausted, so [rename_result] gives [ErrNotHandled] in that case alone. *)
Lemma HandleResponse_from_unhandled_only_exhausted (hs : list (Handler T)) : ∀ i w,
  errors_Is (fst (fst (HandleResponse_from i hs w))) ErrUnhandledResponse = true →
  fst (fst (HandleResponse_from i hs w)) = Some (errNew ErrUnhandledResponse)
  ∧ fst (fst (handlers_loop i (map rename_handler hs) w)) = Exhausted.
Proof.
  intros i w. rewrite handlers_loop_matches_chain.
  destruct (HandleResponse_from_spec hs i w) as
    [(pre & hk & post & errs & wk & e & w' & evs_pre & evs & _ & _ & _ & _ & Hst & ->)
    |(errs & w' & evs & _ & _ & ->)]; cbn.
  - intros He. destruct Hst as [->|Hf]; [discriminate|congruence].
  - by intros _.
Qed.

End DispatchEquivalence.

(** The cases of the repository's chain test, on both loops. *)
Example chain_skipped_handlers :
  HandlerChain_HandleResponse
    [counting (Some (errNew ErrUnhandledResponse));
     counting (Some (errNew ErrUnhandledResponse));
     counting None; counting None] world0
  = (None, mkWorld 3%nat response200, [EvCall 0; EvCall 1; EvCall 2]).
Proof. reflexivity. Qed.

Example chain_failed_handler :
  HandlerChain_HandleResponse
    [counting (Some (errNew ErrUnhandledResponse));
     counting (Some (otherError "test error"));
     counting None] world0
  = (Some (otherError "test error"), mkWorld 2%nat response200, [EvCall 0; EvCall 1]).
Proof. reflexivity. Qed.

Example endpoint_skipped_handlers :
  Endpoint.Do_dispatch 0%nat
    [counting (Some (errNew Endpoint.ErrSkipHandler));
     counting (Some (errNew Endpoint.ErrSkipHandler))] world0
  = (0%nat, None, Some (errNew Endpoint.ErrNotHandled),
     mkWorld 2%nat response200, [EvCall 0; EvCall 1]).
Proof. reflexivity. Qed.

(** ** WithPathValue *)

(** The documented examples: a placeholder at the end is replaced, one with a
    character other than a slash before it is not, and a missing one is
    reported. *)
Example WithPathValue_documented :
  WithPathValue "id" "1234" (contextWithPath "/api/product/{id}")
    = (None, contextWithPath "/api/product/1234")
  ∧ WithPathValue "id" "1234" (contextWithPath "/api/product/p{id}")
    = (Some (unusedPathValueError (mkURL "/api/product/p{id}" EmptyString) "id" "1234"),
       contextWithPath "/api/product/p{id}")
  ∧ WithPathValue "ValueA" "A" (contextWithPath "/{ValueA}/{ValueB}/{ValueA}/{ValueB}")
    = (None, contextWithPath "/A/{ValueB}/A/{ValueB}").
Proof. repeat split; reflexivity. Qed.

(** C2 on the code. Two placeholders that share the slash between them are
    not both replaced: the match of the first takes the slash, so the second
    is no longer preceded by one, where the documentation promises
    [/1234/1234]. A dollar sign in the value is read as a reference to a
    group of the pattern: [$5] names no group and vanishes, and [$0] puts the
    matched text back, so that a path made of the placeholder alone is
    reported as not having it. *)
Theorem WithPathValue_misses_adjacent_placeholder :
  (WithPathValue "id" "1234" (contextWithPath "/{id}/{id}")
     = (None, contextWithPath "/1234/{id}")
   ∧ replace_every_placeholder "id" "1234" "/{id}/{id}" = "/1234/1234")
  ∧ (WithPathValue "price" "US$5" (contextWithPath "/offers/{price}")
     = (None, contextWithPath "/offers/US")
   ∧ replace_every_placeholder "price" "US$5" "/offers/{price}" = "/offers/US$5")
  ∧ (WithPathValue "id" "$0" (contextWithPath "{id}")
     = (Some (unusedPathValueError (mkURL "{id}" EmptyString) "id" "$0"),
        contextWithPath "{id}")
   ∧ replace_every_placeholder "id" "$0" "{id}" = "$0").
Proof. repeat split; reflexivity. Qed.

Section PathValueProperties.

Import Regexp.

Lemma substring_all (s : string) : String.substring 0 (String.length s) s = s.
Proof. induction s as [|c s IH]; cbn; [reflexivity|by rewrite IH]. Qed.

Lemma drop_string_0 (s : string) : drop_string 0 s = s.
Proof. unfold drop_string. rewrite Nat.sub_0_r. apply substring_all. Qed.

Lemma drop_string_S (n : nat) (c : ascii) (s : string) :
  drop_string (S n) (String c s) = drop_string n s.
Proof. reflexivity. Qed.

Lemma append_cons (c : ascii) (a b : string) : String c a +:+ b = String c (a +:+ b).
Proof. reflexivity. Qed.

Lemma append_assoc (a b c : string) : (a +:+ b) +:+ c = a +:+ (b +:+ c).
Proof.
  induction a as [|x a IH]; [reflexivity|]. by rewrite !append_cons, IH.
Qed.

Lemma prefix_split (s : string) : ∀ rest,
  String.prefix s rest = true → rest = s +:+ drop_string (String.length s) rest.
Proof.
  induction s as [|a s IH]; intros rest Hp.
  - cbn. by rewrite drop_string_0.
  - destruct rest as [|b rest]; [discriminate|]. cbn [String.prefix] in Hp.
    destruct (ascii_dec a b) as [->|]; [|discriminate].
    cbn [String.length]. rewrite drop_string_S.
    rewrite append_cons. f_equal. by apply IH.
Qed.

Lemma segment_ends_of_tail (r : string) :
  String.prefix "/" r = true ∨ String.length r = 0%nat → segment_ends r = true.
Proof.
  destruct r as [|c r]; [reflexivity|].
  cbn [segment_ends String.prefix String.length].
  intros [H|H]; [|discriminate].
  destruct (ascii_dec "/" c) as [<-|]; [reflexivity|discriminate].
Qed.

Lemma afterSlash_matches {R : Type} name pos rest caps
    (k : nat → string → list (nat * string) → option R) x :
  rmatch (afterSlash name) pos rest caps k = Some x →
  ∃ post, rest = placeholder name +:+ post ∧ segment_ends post = true.
Proof.
  unfold afterSlash. cbn [rmatch].
  destruct (String.prefix "{" rest) eqn:H1; [|discriminate].
  destruct (String.prefix name (drop_string (String.length "{") rest)) eqn:H2;
    [|discriminate].
  destruct (String.prefix "}"
              (drop_string (String.length name)
                 (drop_string (String.length "{") rest))) eqn:H3; [|discriminate].
  set (post := drop_string (String.length "}") _).
  intros Hk. exists post. split.
  - apply prefix_split in H1, H2, H3. fold post in H3.
    rewrite H1 at 1. rewrite H2 at 1. rewrite H3 at 1.
    unfold placeholder. by rewrite !append_assoc.
  - apply segment_ends_of_tail.
    destruct (String.prefix "/" post); [by left|].
    destruct (Nat.eqb_spec (String.length post) 0); [by right|discriminate].
Qed.

Lemma first_alternative {A : Type} (x y : option A) (m : A) :
  match x with Some v => Some v | None => y end = Some m →
  x = Some m ∨ y = Some m.
Proof. destruct x; auto. Qed.

Lemma match_at_placeholder name pos rest m :
  match_at (pathValuePattern name) pos rest = Some m →
  (pos = 0%nat ∧ ∃ post, rest = placeholder name +:+ post ∧ segment_ends post = true)
  ∨ (∃ post, rest = "/" +:+ placeholder name +:+ post ∧ segment_ends post = true).
Proof.
  unfold match_at, pathValuePattern. fold (afterSlash name). cbn [rmatch].
  intros H. apply first_alternative in H as [H|H].
  - destruct (Nat.eqb_spec pos 0) as [->|Hpos]; [|discriminate].
    left. split; [reflexivity|]. eapply afterSlash_matches, H.
  - destruct (String.prefix "/" rest) eqn:Hs; [|discriminate].
    right. apply afterSlash_matches in H as (post & Hr & He).
    exists post. split; [|exact He].
    apply prefix_split in Hs. rewrite Hs at 1. by rewrite Hr.
Qed.

Lemma doExecute_placeholder name : ∀ rest pre m,
  doExecute (pathValuePattern name) (String.length pre) rest = Some m →
  has_placeholder name (pre +:+ rest).
Proof.
  induction rest as [|c rest IH]; intros pre m; cbn [doExecute].
  - destruct (match_at _ _ _) eqn:Hm; [|discriminate]. intros _.
    apply match_at_placeholder in Hm as [(Hpos & post & Hr & He)|(post & Hr & He)].
    + destruct pre; [|discriminate]. exists EmptyString, post. cbn. auto.
    + destruct post; discriminate.
  - destruct (match_at _ _ _) eqn:Hm.
    + intros _.
      apply match_at_placeholder in Hm as [(Hpos & post & Hr & He)|(post & Hr & He)].
      * destruct pre; [|discriminate]. exists EmptyString, post. cbn. auto.
      * exists (pre +:+ "/"), post. rewrite Hr. rewrite !append_assoc.
        split; [reflexivity|]. split; [right; by exists pre|exact He].
    + intros Hd.
      replace (pre +:+ String c rest) with ((pre +:+ String c EmptyString) +:+ rest)
        by (rewrite append_assoc; reflexivity).
      apply (IH _ m).
      replace (String.length (pre +:+ String c EmptyString)) with (S (String.length pre));
        [exact Hd|].
      clear. induction pre as [|x pre IHp]; [reflexivity|].
      rewrite append_cons. cbn [String.length]. by rewrite <- IHp.
Qed.

Context {T : Type}.

(** The second half of C2 holds for the names the pattern is modelled for:
    on a path without the placeholder the option returns an
    [UnusedPathValueError] with the URL, the name and the value, and changes
    nothing. Conversely the option returns nil only on a path that has the
    placeholder. *)
Lemma WithPathValue_reports_missing_placeholder (name value : string)
    (ctx : @fetchContext T) :
  plain_name name = true →
  ¬ has_placeholder name (Path (ReqURL (fc_Request ctx))) →
  WithPathValue name value ctx
  = (Some (unusedPathValueError (ReqURL (fc_Request ctx)) name value), ctx).
Proof.
  intros _ Hno. unfold WithPathValue, ReplaceAllString. cbn [replaceAll].
  destruct (doExecute _ 0 _) eqn:Hd.
  - exfalso. apply Hno. apply (doExecute_placeholder name _ EmptyString m). exact Hd.
  - by rewrite String.eqb_refl.
Qed.

End PathValueProperties.

(** ** Discarding and decoding the body *)

Section BodyProperties.

Context {T : Type}.
Implicit Types (w : World T) (resp : Response).

Lemma copy_discard_all_data (p : list ReadResult) :
  all_data p → copy_discard p = (None, []).
Proof.
  induction 1 as [|r p [bytes ->] _ IH]; [reflexivity|exact IH].
Qed.

Lemma copy_discard_first_error (ds rest : list ReadResult) (x : err) :
  all_data ds → copy_discard (ds ++ Fail x :: rest) = (Some x, rest).
Proof.
  induction 1 as [|r p [bytes ->] _ IH]; [reflexivity|exact IH].
Qed.

Lemma io_Copy_Discard_readable (b : Body) :
  readable b →
  io_Copy_Discard b
  = (fst (copy_discard (pending b)),
     mkBody (snd (copy_discard (pending b))) (closed b) (closed_read b) (close_err b)).
Proof.
  unfold io_Copy_Discard.
  intros [Hc|Hr]; [rewrite Hc|rewrite Hr; destruct (closed b)];
    by destruct (copy_discard (pending b)).
Qed.

(** X1. [discardBody] on a body that can be read to its end without error: every
    outcome is consumed, the body is closed, the result is what [Close]
    returned, and the status and the headers are as before. *)
Theorem discardBody_drains_and_closes resp :
  readable (RespBody resp) →
  all_data (pending (RespBody resp)) →
  discardBody resp
  = (close_err (RespBody resp), with_body resp (closed_with [] (RespBody resp))).
Proof.
  intros Hr Hd. unfold discardBody. rewrite (io_Copy_Discard_readable _ Hr).
  rewrite (copy_discard_all_data _ Hd). cbn.
  unfold with_body, closed_with. destruct (close_err (RespBody resp)); reflexivity.
Qed.

(** X2. [discardBody] on a body whose reading fails: the read error is returned,
    whatever [Close] returns; the body is closed all the same, and what would
    have come after the failed read stays unread. *)
Theorem discardBody_read_error_wins resp ds x rest :
  readable (RespBody resp) →
  all_data ds →
  pending (RespBody resp) = ds ++ Fail x :: rest →
  discardBody resp = (Some x, with_body resp (closed_with rest (RespBody resp))).
Proof.
  intros Hr Hd Hp. unfold discardBody. rewrite (io_Copy_Discard_readable _ Hr).
  rewrite Hp, (copy_discard_first_error _ _ _ Hd). cbn.
  unfold with_body, closed_with. destruct (close_err (RespBody resp)); reflexivity.
Qed.

(** X3. [discardBody] on a body that was closed before and refuses reads since:
    nothing is read, the refusal is the error returned, and the body is
    closed once more. *)
Theorem discardBody_after_close resp x :
  closed (RespBody resp) = true →
  closed_read (RespBody resp) = Some x →
  discardBody resp
  = (Some x, with_body resp (closed_with (pending (RespBody resp)) (RespBody resp))).
Proof.
  intros Hc Hx. unfold discardBody, io_Copy_Discard, with_body, closed_with.
  rewrite Hc, Hx. cbn. rewrite Hx.
  destruct (close_err (RespBody resp)); reflexivity.
Qed.

(** X4. [DiscardBodyHandler] never touches the destination and calls no other
    handler. The body is closed when it returns, and the error it returns is
    that of the reading when the reading failed, otherwise that of [Close]
    (nil when both went well). *)
Theorem DiscardBodyHandler_keeps_destination w :
  ∃ resp',
    DiscardBodyHandler w
    = (match fst (io_Copy_Discard (RespBody (w_resp w))) with
       | Some readErr => Some readErr
       | None => close_err (RespBody (w_resp w))
       end, mkWorld (w_dst w) resp', [])
    ∧ closed (RespBody resp') = true
    ∧ StatusCode resp' = StatusCode (w_resp w)
    ∧ RespHeader resp' = RespHeader (w_resp w).
Proof.
  exists (snd (discardBody (w_resp w))).
  unfold DiscardBodyHandler, HandlerFunc, discardBody.
  assert (Hce : close_err (snd (io_Copy_Discard (RespBody (w_resp w))))
                = close_err (RespBody (w_resp w))).
  { unfold io_Copy_Discard.
    destruct (closed _), (closed_read _); try reflexivity;
      by destruct (copy_discard _). }
  destruct (io_Copy_Discard (RespBody (w_resp w))) as [ce b]. cbn in *.
  rewrite <- Hce. destruct ce, (close_err b); repeat split.
Qed.

End BodyProperties.

Section DecodingProperties.

Context {T : Type}.
Variable json_UnmarshalRead : Body -> T -> error * Body * T.
Variable xml_Decode : bool -> Body -> T -> error * Body * T.

Lemma deferred_Close_result (derr : error) (t : T) (resp : Response) (b : Body) :
  deferred_Close (derr, mkWorld t (with_body resp b), [])
  = (match derr with Some _ => derr | None => close_err b end,
     mkWorld t (with_body resp (closed_with (pending b) b)), []).
Proof.
  unfold deferred_Close, with_body, closed_with. cbn.
  by destruct derr, (close_err b).
Qed.

(** X5. [UnmarshalJSONHandler] closes the body whatever the decoder does and
    reads nothing beyond what the decoder read. A decoding error is returned
    as it is, never replaced by the error of [Close]; when decoding
    succeeded the result is what [Close] returned. The destination is left
    as the decoder left it, also on error. *)
Theorem UnmarshalJSONHandler_closes_and_reports (w : World T) derr b t :
  json_UnmarshalRead (RespBody (w_resp w)) (w_dst w) = (derr, b, t) →
  UnmarshalJSONHandler json_UnmarshalRead w
  = (match derr with Some _ => derr | None => close_err b end,
     mkWorld t (with_body (w_resp w) (closed_with (pending b) b)), []).
Proof.
  intros Hd. unfold UnmarshalJSONHandler, HandlerFunc. rewrite Hd.
  apply (deferred_Close_result derr t (w_resp w) b).
Qed.

(** X6. [UnmarshalXMLHandler] behaves the same way around [Decode], to which the
    [strict] flag is passed on: the body is closed in every case, a decoding
    error is never replaced by the error of [Close], and the destination is
    left as the decoder left it. *)
Theorem UnmarshalXMLHandler_closes_and_reports (strict : bool) (w : World T) derr b t :
  xml_Decode strict (RespBody (w_resp w)) (w_dst w) = (derr, b, t) →
  UnmarshalXMLHandler xml_Decode strict w
  = (match derr with Some _ => derr | None => close_err b end,
     mkWorld t (with_body (w_resp w) (closed_with (pending b) b)), []).
Proof.
  intros Hd. unfold UnmarshalXMLHandler, HandlerFunc. rewrite Hd.
  apply (deferred_Close_result derr t (w_resp w) b).
Qed.

End DecodingProperties.

(** ** Composing handlers *)

Section CompositionProperties.

Context {T : Type}.
Implicit Types (a b hs : list (Handler T)) (w : World T).

Lemma HandleResponse_from_app a : ∀ b i w,
  HandleResponse_from i (a ++ b) w
  = let '(e, w1, evs) := HandleResponse_from i a w in
    if errors_Is e ErrUnhandledResponse
    then let '(e2, w2, evs2) := HandleResponse_from (i + length a) b w1 in
         (e2, w2, evs ++ evs2)
    else (e, w1, evs).
Proof.
  induction a as [|h0 a IH]; intros b i w.
  - cbn. rewrite Nat.add_0_r. by destruct (HandleResponse_from i b w) as [[e w1] evs].
  - cbn [app HandleResponse_from length].
    destruct (h0 w) as [[e0 w1] evs0].
    destruct e0 as [x|]; cbn [is_nil orb errors_Is]; [|reflexivity].
    destruct (errors_is x ErrUnhandledResponse) eqn:Hx; cbn [negb].
    + rewrite IH. destruct (HandleResponse_from (S i) a w1) as [[e w2] evs2].
      destruct (errors_Is e ErrUnhandledResponse); [|reflexivity].
      rewrite Nat.add_succ_r. cbn [Nat.add].
      destruct (HandleResponse_from (S (i + length a)) b w2) as [[e3 w3] evs3].
      cbn. by rewrite <- app_assoc.
    + cbn. by rewrite Hx.
Qed.

(** X7. A chain made of two lists behaves as the first list followed, when the
    first list handled nothing, by the second on the objects the first left:
    the handlers of the second list are called only if every handler of the
    first fell through, and then with indices that continue the count. *)
Theorem HandlerChain_append a b w :
  HandlerChain_HandleResponse (a ++ b) w
  = let '(e, w1, evs) := HandlerChain_HandleResponse a w in
    if errors_Is e ErrUnhandledResponse
    then let '(e2, w2, evs2) := HandleResponse_from (length a) b w1 in
         (e2, w2, evs ++ evs2)
    else (e, w1, evs).
Proof. apply HandleResponse_from_app. Qed.

Lemma HandleResponse_from_index hs : ∀ i j w,
  fst (HandleResponse_from i hs w) = fst (HandleResponse_from j hs w).
Proof.
  induction hs as [|h0 hs IH]; intros i j w; [reflexivity|].
  cbn [HandleResponse_from]. destruct (h0 w) as [[e0 w1] evs0].
  destruct (is_nil e0 || negb (errors_Is e0 ErrUnhandledResponse)); [reflexivity|].
  specialize (IH (S i) (S j) w1).
  destruct (HandleResponse_from (S i) hs w1) as [[e w2] evs2].
  destruct (HandleResponse_from (S j) hs w1) as [[e' w2'] evs2'].
  cbn in *. congruence.
Qed.

Lemma HandleResponse_from_nested (chains : list (list (Handler T))) : ∀ w i,
  fst (HandleResponse_from i (map HandlerChain_HandleResponse chains) w)
  = fst (HandleResponse_from i (concat chains) w).
Proof.
  induction chains as [|c chains IH]; intros w i; [reflexivity|].
  cbn [map concat]. rewrite HandleResponse_from_app.
  cbn [HandleResponse_from]. unfold HandlerChain_HandleResponse at 1.
  pose proof (HandleResponse_from_index c 0%nat i w) as Hidx.
  destruct (HandleResponse_from 0 c w) as [[e w1] evs].
  destruct (HandleResponse_from i c w) as [[e' w1'] evs']. cbn in Hidx.
  injection Hidx as <- <-.
  destruct e as [x|]; cbn [is_nil orb errors_Is]; [|reflexivity].
  destruct (errors_is x ErrUnhandledResponse); cbn [negb]; [|reflexivity].
  specialize (IH w1 (S i)).
  pose proof (HandleResponse_from_index (concat chains) (S i) (i + length c)%nat w1) as Hj.
  destruct (HandleResponse_from (S i) (map HandlerChain_HandleResponse chains) w1)
    as [[e2 w2] evs2].
  destruct (HandleResponse_from (S i) (concat chains) w1) as [[e3 w3] evs3].
  destruct (HandleResponse_from (i + length c) (concat chains) w1) as [[e4 w4] evs4].
  cbn in *. congruence.
Qed.

(** X8. Chains nest: a chain whose handlers are themselves chains returns the
    error, and leaves the objects, of the one chain made of all their
    handlers in order. This rests on an exhausted chain returning the very
    error that makes the outer chain go on. *)
Theorem HandlerChain_nested_flattens (chains : list (list (Handler T))) w :
  fst (HandlerChain_HandleResponse (map HandlerChain_HandleResponse chains) w)
  = fst (HandlerChain_HandleResponse (concat chains) w).
Proof. apply HandleResponse_from_nested. Qed.

(** X9. A chain that ends with [ErrorHandler] of nil, or of an error that does
    not match [ErrUnhandledResponse], never returns an error that matches
    it: the last handler catches every response the others left. *)
Theorem HandlerChain_with_fallback hs (e : error) w :
  errors_Is e ErrUnhandledResponse = false →
  errors_Is (fst (fst (HandlerChain_HandleResponse (hs ++ [ErrorHandler e]) w)))
    ErrUnhandledResponse = false.
Proof.
  intros He. rewrite HandlerChain_append.
  destruct (HandlerChain_HandleResponse hs w) as [[e1 w1] evs1].
  destruct (errors_Is e1 ErrUnhandledResponse) eqn:H1; [|exact H1].
  cbn. destruct e as [x|]; cbn in *; [|reflexivity].
  by rewrite He.
Qed.

(** X10. Conditions nest as a conjunction. [StatusHandler] around
    [ContentTypeHandler] calls the inner handler exactly when both the
    status and the content type match, and the order of the two wrappers
    makes no difference to the error returned nor to the objects. *)
Theorem StatusHandler_ContentTypeHandler_conjunction
    (statusCode : Z) (contentType : string) (handler : Handler T) w :
  (StatusCode (w_resp w) = statusCode ∧ content_type_matches contentType (w_resp w) →
     ∃ e w' evs, handler w = (e, w', evs)
       ∧ StatusHandler statusCode (ContentTypeHandler contentType handler) w
         = (e, w', EvDispatch :: EvDispatch :: evs)
       ∧ ContentTypeHandler contentType (StatusHandler statusCode handler) w
         = (e, w', EvDispatch :: EvDispatch :: evs))
  ∧ (¬ (StatusCode (w_resp w) = statusCode
        ∧ content_type_matches contentType (w_resp w)) →
     fst (StatusHandler statusCode (ContentTypeHandler contentType handler) w)
       = (Some (errNew ErrUnhandledResponse), w)
     ∧ fst (ContentTypeHandler contentType (StatusHandler statusCode handler) w)
       = (Some (errNew ErrUnhandledResponse), w)).
Proof.
  unfold StatusHandler, ContentTypeHandler, ConditionalHandler, HandlerFunc.
  pose proof (contentTypeMatches_spec contentType (w_resp w)) as Hct.
  pose proof (Z.eqb_spec (StatusCode (w_resp w)) statusCode) as Hst.
  destruct (contentTypeMatches contentType (w_resp w));
    destruct Hst as [Hs|Hs]; cbn; split.
  - intros _. destruct (handler w) as [[e w'] evs]. by exists e, w', evs.
  - intros Hn. exfalso. apply Hn. split; [exact Hs|]. by apply Hct.
  - intros [Hs' _]. contradiction.
  - done.
  - intros [_ Hm]. apply Hct in Hm. discriminate.
  - done.
  - intros [Hs' _]. contradiction.
  - done.
Qed.

End CompositionProperties.

(** ** The default handlers *)

Section DefaultHandlersProperties.

Context {T : Type}.
Variable problem_ContentType : string.
Variable problem_From : Response -> option Details * error * Response.
Variable json_UnmarshalRead : Body -> T -> error * Body * T.
Variable xml_Decode : bool -> Body -> T -> error * Body * T.

Let defaultHandlers : HandlerChain T :=
  DefaultHandlers problem_ContentType problem_From json_UnmarshalRead xml_Decode.

Implicit Types (w : World T).

Lemma contentTypeMatches_false contentType (resp : Response) :
  ¬ content_type_matches contentType resp → contentTypeMatches contentType resp = false.
Proof.
  intros Hn. destruct (contentTypeMatches contentType resp) eqn:Hc; [|reflexivity].
  by apply contentTypeMatches_spec in Hc.
Qed.

(** X11. A response the default handlers do not recognise (its content type is
    neither the problem type nor JSON nor XML, its status neither 204 nor
    304) is left exactly as it came, body unread and open: all five handlers
    are tried, none of the wrapped ones is called, and the result is
    [ErrUnhandledResponse]. *)
Theorem DefaultHandlers_unrecognised_response w :
  ¬ content_type_matches problem_ContentType (w_resp w) →
  ¬ content_type_matches "application/json" (w_resp w) →
  ¬ content_type_matches "application/xml" (w_resp w) →
  StatusCode (w_resp w) ≠ 204 →
  StatusCode (w_resp w) ≠ 304 →
  HandlerChain_HandleResponse defaultHandlers w
  = (Some (errNew ErrUnhandledResponse), w,
     [EvCall 0; EvCall 1; EvCall 2; EvCall 3; EvCall 4]).
Proof.
  intros Hp Hj Hx H204 H304.
  apply contentTypeMatches_false in Hp, Hj, Hx.
  apply Z.eqb_neq in H204, H304.
  subst defaultHandlers.
  unfold HandlerChain_HandleResponse, DefaultHandlers, ProblemHandler,
    ContentTypeHandler, StatusHandler, ConditionalHandler, HandlerFunc.
  cbn [HandleResponse_from]. rewrite Hp. cbn. rewrite Hj. cbn. rewrite Hx. cbn.
  rewrite H204. cbn. rewrite H304. reflexivity.
Qed.

(** X12. A response with the problem content type is an error whatever its
    status: the problem handler, first in the chain, is the only one called,
    and its error is the result (unless [problem.From] itself fails with an
    error that matches [ErrUnhandledResponse]). *)
Theorem DefaultHandlers_problem_first w :
  content_type_matches problem_ContentType (w_resp w) →
  errors_Is (snd (fst (problem_From (w_resp w)))) ErrUnhandledResponse = false →
  ∃ e w' evs,
    ProblemHandler problem_ContentType problem_From w = (Some e, w', evs)
    ∧ HandlerChain_HandleResponse defaultHandlers w = (Some e, w', EvCall 0 :: evs)
    ∧ closed (RespBody (w_resp w')) = true.
Proof.
  intros Hm Hne. apply contentTypeMatches_spec in Hm.
  subst defaultHandlers.
  unfold HandlerChain_HandleResponse, DefaultHandlers. cbn [HandleResponse_from].
  unfold ProblemHandler, ContentTypeHandler, ConditionalHandler, HandlerFunc.
  rewrite Hm. cbn [negb].
  destruct (problem_From (w_resp w)) as [[details derr] resp1]. cbn in Hne.
  destruct derr as [x|]; cbn in Hne |- *.
  - destruct (close_err (RespBody resp1)); cbn; rewrite Hne; cbn;
      do 3 eexists; repeat split.
  - destruct (close_err (RespBody resp1)); cbn; do 3 eexists; repeat split.
Qed.

(** X13. A 204 or 304 response that carries none of the three content types has
    its body discarded: the result is that of [discardBody], the destination
    is not touched and no decoder runs (unless [discardBody] fails with an
    error that matches [ErrUnhandledResponse]). *)
Theorem DefaultHandlers_no_content w :
  ¬ content_type_matches problem_ContentType (w_resp w) →
  ¬ content_type_matches "application/json" (w_resp w) →
  ¬ content_type_matches "application/xml" (w_resp w) →
  StatusCode (w_resp w) = 204 ∨ StatusCode (w_resp w) = 304 →
  errors_Is (fst (discardBody (w_resp w))) ErrUnhandledResponse = false →
  ∃ evs,
    HandlerChain_HandleResponse defaultHandlers w
    = (fst (discardBody (w_resp w)),
       mkWorld (w_dst w) (snd (discardBody (w_resp w))), evs).
Proof.
  intros Hp Hj Hx Hst Hne.
  apply contentTypeMatches_false in Hp, Hj, Hx.
  subst defaultHandlers.
  unfold HandlerChain_HandleResponse, DefaultHandlers, ProblemHandler,
    DiscardBodyHandler, ContentTypeHandler, StatusHandler, ConditionalHandler,
    HandlerFunc.
  cbn [HandleResponse_from]. rewrite Hp. cbn -[discardBody].
  rewrite Hj. cbn -[discardBody]. rewrite Hx. cbn -[discardBody].
  destruct Hst as [Hs|Hs]; rewrite Hs; cbn -[discardBody];
    destruct (discardBody (w_resp w)) as [[x|] resp']; cbn in Hne |- *;
    rewrite ?Hs; cbn; rewrite ?Hne; cbn; eexists; reflexivity.
Qed.

(** X14. A JSON response that is not a problem goes to the JSON decoder and to no
    other handler: the result is that of [UnmarshalJSONHandler] (unless the
    decoder fails with an error that matches [ErrUnhandledResponse]), also
    when the status is 204 or 304. *)
Theorem DefaultHandlers_json w :
  ¬ content_type_matches problem_ContentType (w_resp w) →
  content_type_matches "application/json" (w_resp w) →
  errors_Is (fst (fst (UnmarshalJSONHandler json_UnmarshalRead w)))
    ErrUnhandledResponse = false →
  ∃ e w' evs,
    UnmarshalJSONHandler json_UnmarshalRead w = (e, w', evs)
    ∧ HandlerChain_HandleResponse defaultHandlers w
      = (e, w', [EvCall 0; EvCall 1; EvDispatch] ++ evs).
Proof.
  intros Hp Hj Hne.
  apply contentTypeMatches_false in Hp. apply contentTypeMatches_spec in Hj.
  subst defaultHandlers.
  unfold HandlerChain_HandleResponse, DefaultHandlers.
  revert Hne. generalize (UnmarshalJSONHandler json_UnmarshalRead). intros u Hne.
  unfold ProblemHandler, ContentTypeHandler, ConditionalHandler, HandlerFunc.
  cbn [HandleResponse_from]. rewrite Hp. cbn. rewrite Hj. cbn.
  destruct (u w) as [[e w'] evs].
  cbn in Hne. exists e, w', evs. split; [reflexivity|].
  destruct e as [x|]; cbn in *; [rewrite Hne|]; reflexivity.
Qed.

End DefaultHandlersProperties.

(** ** More on Fetch *)

Section FetchMoreProperties.

Context {T : Type}.
Variable zeroT : T.
Variable problem_ContentType : string.
Variable problem_From : Response -> option Details * error * Response.
Variable json_UnmarshalRead : Body -> T -> error * Body * T.
Variable xml_Decode : bool -> Body -> T -> error * Body * T.
Variable http_NewRequestWithContext : string -> string -> err + Request.
Variable http_DefaultClient : Client.

Let fetchWithResponse :=
  FetchWithResponse zeroT problem_ContentType problem_From json_UnmarshalRead
    xml_Decode http_NewRequestWithContext http_DefaultClient.
Let fetch :=
  Fetch zeroT problem_ContentType problem_From json_UnmarshalRead
    xml_Decode http_NewRequestWithContext http_DefaultClient.
Let defaultHandlers : HandlerChain T :=
  DefaultHandlers problem_ContentType problem_From json_UnmarshalRead xml_Decode.

Lemma dispatches_options (i n : nat) : dispatches (map EvOption (seq i n)) = 0%nat.
Proof.
  revert i. induction n as [|n IH]; intros i; [reflexivity|]. cbn. apply IH.
Qed.

Lemma dispatches_app (a b : list FetchEvent) :
  dispatches (a ++ b) = (dispatches a + dispatches b)%nat.
Proof.
  induction a as [|ev a IH]; [reflexivity|]. cbn. rewrite IH. lia.
Qed.

(** X15. Whenever [FetchWithResponse] returns an error the value it returns is
    the zero value, whatever a handler wrote to the destination before
    failing; and it returns nil only together with a response. [Fetch]
    returns the same value and the same error, and leaves the network as
    [FetchWithResponse] left it. *)
Theorem FetchWithResponse_zero_value_on_error method url opts net t resp e evs net' :
  fetchWithResponse method url opts net = (t, resp, e, evs, net') →
  match e with
  | Some _ => t = zeroT
  | None => ∃ r, resp = Some r
  end
  ∧ fst (fst (fst (fetch method url opts net))) = (t, e)
  ∧ snd (fetch method url opts net) = net'.
Proof.
  subst fetch fetchWithResponse. unfold Fetch.
  intros H. rewrite H. split.
  - unfold FetchWithResponse in H.
    destruct (http_NewRequestWithContext method url) as [x|req]; [by inversion H|].
    destruct (apply_options _ _ _) as [[x|ctx] oevs]; [by inversion H|].
    destruct (fc_Client ctx (fc_Request ctx) net) as [[r|r x] n]; [|by inversion H].
    destruct (fc_Handler ctx _) as [[he w] hevs].
    destruct he as [x|]; cbn in H; inversion H; subst; eauto.
  - destruct resp as [r|]; [destruct (discardBody r)|]; by split.
Qed.

(** X16. One call of [FetchWithResponse] calls the [Do] of a client at most
    once: nothing is sent twice, and nothing is sent before the options
    have run. Either the network is left untouched, the events show no
    request and the call returns an error and no response (the request could
    not be built, or an option failed); or the network is as one call of
    [Do] left it, that of the client the options left with the request they
    left, and the events show that one call. *)
Theorem FetchWithResponse_calls_Do_at_most_once method url opts net t resp e evs net' :
  fetchWithResponse method url opts net = (t, resp, e, evs, net') →
  (net' = net ∧ dispatches evs = 0%nat ∧ resp = None ∧ is_nil e = false)
  ∨ (∃ req ctx,
       http_NewRequestWithContext method url = inr req
       ∧ run_options opts
           (mkFetchContext http_DefaultClient req
              (HandlerChain_HandleResponse defaultHandlers)) = Some ctx
       ∧ net' = snd (fc_Client ctx (fc_Request ctx) net)
       ∧ dispatches evs = 1%nat).
Proof.
  subst fetchWithResponse. unfold FetchWithResponse.
  destruct (http_NewRequestWithContext method url) as [x|req].
  { intros Heq. injection Heq as <- <- <- <- <-. by left. }
  fold defaultHandlers.
  destruct (apply_options_spec opts 0%nat
              (mkFetchContext http_DefaultClient req
                 (HandlerChain_HandleResponse defaultHandlers))) as
    [(pre & opt & post & ctx_k & x & ctx' & _ & _ & _ & ->)
    |(ctx_n & Hrun & ->)].
  - pose proof (dispatches_options 0 (S (length pre))) as Hd.
    revert Hd. generalize (map EvOption (seq 0 (S (length pre)))). intros l Hd.
    intros Heq. injection Heq as <- <- <- <- <-. by left.
  - pose proof (dispatches_options 0 (length opts)) as Hd.
    revert Hd. generalize (map EvOption (seq 0 (length opts))). intros l Hd.
    intros Heq. right. exists req, ctx_n. split; [reflexivity|]. split; [exact Hrun|].
    destruct (fc_Client ctx_n (fc_Request ctx_n) net) as [[r|r x] n]; cbn [snd].
    + destruct (fc_Handler ctx_n _) as [[he w] hevs].
      destruct (negb (is_nil he)); injection Heq as <- <- <- <- <-;
        (split; [reflexivity|]); by rewrite dispatches_app, Hd.
    + injection Heq as <- <- <- <- <-. split; [reflexivity|].
      by rewrite dispatches_app, Hd.
Qed.

(** X17. Later options win: after options that succeed, [WithClient] and
    [WithHandler] given last replace the default client and the default
    handlers, and any earlier choice; the request is sent through that
    client, as the earlier options left it, and handled by that handler. *)
Theorem WithClient_WithHandler_override method url opts req ctx net
    (client : Client) (handler : Handler T) :
  http_NewRequestWithContext method url = inr req →
  run_options opts
    (mkFetchContext http_DefaultClient req (HandlerChain_HandleResponse defaultHandlers))
    = Some ctx →
  fetchWithResponse method url (opts ++ [WithClient client; WithHandler handler]) net
  = let '(t, resp, e, evs, net') :=
      send_and_handle zeroT client handler (fc_Request ctx) net in
    (t, resp, e, map EvOption (seq 0 (length opts + 2)) ++ evs, net').
Proof.
  intros Hreq Hrun.
  assert (Hrun2 : run_options (opts ++ [WithClient client; WithHandler handler])
                    (mkFetchContext http_DefaultClient req
                       (HandlerChain_HandleResponse defaultHandlers))
                  = Some (mkFetchContext client (fc_Request ctx) handler)).
  { clear Hreq. revert Hrun.
    generalize (mkFetchContext http_DefaultClient req
                  (HandlerChain_HandleResponse defaultHandlers)).
    induction opts as [|o opts IH]; intros c Hrun; cbn in *.
    - by inversion Hrun.
    - destruct (o c) as [[x|] c1]; [discriminate|]. by apply IH. }
  subst fetchWithResponse. subst defaultHandlers.
  rewrite (FetchWithResponse_after_options zeroT problem_ContentType problem_From
             json_UnmarshalRead xml_Decode http_NewRequestWithContext http_DefaultClient
             _ _ _ _ _ net Hreq Hrun2).
  by rewrite length_app.
Qed.

End FetchMoreProperties.

(** ** Header options *)

Section HeaderProperties.

Context {T V : Type}.
Variable json_Marshal : V -> err + string.
Implicit Types (ctx : @fetchContext T) (key value : string).

Lemma Header_Get_Values (h : gmap string (list string)) key :
  Header_Get h key = match Header_Values h key with v :: _ => v | [] => EmptyString end.
Proof.
  unfold Header_Get, Header_Values.
  by destruct (h !! CanonicalMIMEHeaderKey key) as [[|v vs]|].
Qed.

(** X18. [WithHeader] never fails. After it the header has the given value and
    no other, whatever it held before, so that of two [WithHeader] for one
    key the later wins as if the earlier had not been given. *)
Theorem WithHeader_sets_single_value key value ctx :
  WithHeader key value ctx
    = (None, with_header ctx (Header_Set (ReqHeader (fc_Request ctx)) key value))
  ∧ Header_Values (ReqHeader (fc_Request (snd (WithHeader key value ctx)))) key = [value]
  ∧ Header_Get (ReqHeader (fc_Request (snd (WithHeader key value ctx)))) key = value
  ∧ ∀ earlier,
      snd (WithHeader key value (snd (WithHeader key earlier ctx)))
      = snd (WithHeader key value ctx).
Proof.
  split; [reflexivity|].
  assert (Hv : Header_Values (ReqHeader (fc_Request (snd (WithHeader key value ctx)))) key
               = [value]).
  { cbn. unfold Header_Values, Header_Set. by rewrite lookup_insert_eq. }
  split; [exact Hv|]. split.
  - by rewrite Header_Get_Values, Hv.
  - intros earlier. cbn. unfold Header_Set. by rewrite insert_insert_eq.
Qed.

(** X19. [WithAddedHeader] never fails. It puts the value after the values the
    header already has, keeping them and their order; [Header.Get], which
    reads the first value, goes on returning the old first value when there
    is one. *)
Theorem WithAddedHeader_appends_value key value ctx :
  WithAddedHeader key value ctx
    = (None, with_header ctx (Header_Add (ReqHeader (fc_Request ctx)) key value))
  ∧ Header_Values (ReqHeader (fc_Request (snd (WithAddedHeader key value ctx)))) key
    = Header_Values (ReqHeader (fc_Request ctx)) key ++ [value]
  ∧ Header_Get (ReqHeader (fc_Request (snd (WithAddedHeader key value ctx)))) key
    = match Header_Values (ReqHeader (fc_Request ctx)) key with
      | first :: _ => first
      | [] => value
      end.
Proof.
  split; [reflexivity|].
  assert (Hv : Header_Values (ReqHeader (fc_Request (snd (WithAddedHeader key value ctx)))) key
               = Header_Values (ReqHeader (fc_Request ctx)) key ++ [value]).
  { cbn. unfold Header_Values, Header_Add. by rewrite lookup_insert_eq. }
  split; [exact Hv|].
  rewrite Header_Get_Values, Hv.
  by destruct (Header_Values (ReqHeader (fc_Request ctx)) key).
Qed.

(** X20. Neither option touches a header of another name, that is, one whose
    canonical form differs; names that differ only in case are the same
    header. *)
Theorem header_options_keep_other_headers key value other ctx :
  CanonicalMIMEHeaderKey other ≠ CanonicalMIMEHeaderKey key →
  Header_Values (ReqHeader (fc_Request (snd (WithHeader key value ctx)))) other
    = Header_Values (ReqHeader (fc_Request ctx)) other
  ∧ Header_Values (ReqHeader (fc_Request (snd (WithAddedHeader key value ctx)))) other
    = Header_Values (ReqHeader (fc_Request ctx)) other.
Proof.
  intros Hne. cbn. unfold Header_Values, Header_Set, Header_Add.
  by rewrite !lookup_insert_ne.
Qed.

(** X21. A Content-Type given with [WithHeader] survives [WithBodyJSON] in either
    order, provided it is not empty: after both options the header has that
    one value. *)
Theorem WithHeader_Content_Type_survives_WithBodyJSON (v : V) (body value : string) ctx :
  json_Marshal v = inr body →
  value ≠ EmptyString →
  Header_Values
    (ReqHeader (fc_Request
       (snd (WithBodyJSON json_Marshal v (snd (WithHeader "Content-Type" value ctx))))))
    "Content-Type" = [value]
  ∧ Header_Values
      (ReqHeader (fc_Request
         (snd (WithHeader "Content-Type" value (snd (WithBodyJSON json_Marshal v ctx))))))
      "Content-Type" = [value].
Proof.
  intros Hm Hv. split.
  - unfold WithBodyJSON. rewrite Hm. cbn.
    unfold Header_Get, Header_Set, Header_Values.
    rewrite canonical_Content_Type, lookup_insert_eq.
    destruct (String.eqb_spec value EmptyString) as [?|_]; [contradiction|].
    by rewrite lookup_insert_eq.
  - unfold WithBodyJSON. rewrite Hm. cbn.
    unfold Header_Set, Header_Values. by rewrite lookup_insert_eq.
Qed.

End HeaderProperties.

(** ** More on WithPathValue *)

Section PathValueFrame.

Context {T : Type}.

(** X22. For an ASCII name (of less than 2^20 bytes), [WithPathValue] touches
    nothing but the path. Either it reports the placeholder as unused and
    leaves the whole context as it was, or it returns nil, and then the path
    has changed, the path it found did hold the placeholder, and the client,
    the handler and every other part of the request are as before. *)
Theorem WithPathValue_changes_only_the_path (name value : string) (ctx : @fetchContext T) :
  plain_name name = true →
  WithPathValue name value ctx
    = (Some (unusedPathValueError (ReqURL (fc_Request ctx)) name value), ctx)
  ∨ ∃ path',
      WithPathValue name value ctx = (None, with_path ctx path')
      ∧ path' ≠ Path (ReqURL (fc_Request ctx))
      ∧ has_placeholder name (Path (ReqURL (fc_Request ctx))).
Proof.
  intros _. unfold WithPathValue.
  set (replaced := Regexp.ReplaceAllString _ _ _).
  destruct (String.eqb_spec (Path (ReqURL (fc_Request ctx))) replaced) as [Heq|Hne].
  - by left.
  - right. exists replaced. split; [reflexivity|]. split; [congruence|].
    subst replaced. unfold Regexp.ReplaceAllString in Hne. cbn [Regexp.replaceAll] in Hne.
    destruct (Regexp.doExecute _ 0 _) eqn:Hd; [|congruence].
    apply (doExecute_placeholder name _ EmptyString m). exact Hd.
Qed.

End PathValueFrame.

(** ** The earlier API *)

Section EndpointAPIProperties.

Context {T : Type}.
Variable zeroT : T.
Variable http_NewRequestWithContext : string -> string -> err + Request.
Variable http_DefaultClient : EndpointAPI.Client1.

Let newRequest := EndpointAPI.NewRequest http_NewRequestWithContext.
Let do := @EndpointAPI.Do http_NewRequestWithContext http_DefaultClient T zeroT.

Lemma apply_request_options_spec (opts : list EndpointAPI.RequestOption) : ∀ i req,
  (∃ pre opt post req_k e req',
      opts = pre ++ opt :: post ∧
      EndpointAPI.run_request_options pre req = Some req_k ∧
      opt req_k = (Some e, req') ∧
      EndpointAPI.apply_request_options i opts req = (inl e, map EndpointAPI.EvOpt (seq i (S (length pre)))))
  ∨ (∃ req_n,
      EndpointAPI.run_request_options opts req = Some req_n ∧
      EndpointAPI.apply_request_options i opts req = (inr req_n, map EndpointAPI.EvOpt (seq i (length opts)))).
Proof.
  induction opts as [|opt rest IH]; intros i req.
  - right. by exists req.
  - cbn [EndpointAPI.apply_request_options EndpointAPI.run_request_options].
    destruct (opt req) as [[e|] req1] eqn:Hopt.
    + left. exists [], opt, rest, req, e, req1. by repeat split.
    + destruct (IH (S i) req1) as
        [(pre & o & post & req_k & e & req' & -> & Hpre & Ho & ->)
        |(req_n & Hrun & ->)].
      * left. exists (opt :: pre), o, post, req_k, e, req'.
        repeat split; auto. cbn. by rewrite Hopt.
      * right. by exists req_n.
Qed.

(** X26. [NewRequest], once [http.NewRequestWithContext] gave a request, applies
    the options first to last, each to the request the previous one left.
    The first error ends it: that error is returned with a nil request and
    no later option is applied. Without error the request returned is the
    one all options left. *)
Theorem NewRequest_applies_options_in_order method url opts req :
  http_NewRequestWithContext method url = inr req →
  (∃ pre opt post req_k e req',
      opts = pre ++ opt :: post ∧
      EndpointAPI.run_request_options pre (EndpointAPI.mkTRequest req None) = Some req_k ∧
      opt req_k = (Some e, req') ∧
      newRequest method url opts = (None, Some e, map EndpointAPI.EvOpt (seq 0 (S (length pre)))))
  ∨ (∃ req_n,
      EndpointAPI.run_request_options opts (EndpointAPI.mkTRequest req None) = Some req_n ∧
      newRequest method url opts = (Some req_n, None, map EndpointAPI.EvOpt (seq 0 (length opts)))).
Proof.
  intros Hreq. subst newRequest. unfold EndpointAPI.NewRequest. rewrite Hreq.
  destruct (apply_request_options_spec opts 0%nat (EndpointAPI.mkTRequest req None)) as
    [(pre & opt & post & req_k & e & req' & Hopts & Hpre & Hopt & ->)
    |(req_n & Hrun & ->)].
  - left. by exists pre, opt, post, req_k, e, req'.
  - right. by exists req_n.
Qed.

(** [NewRequest] returns a request exactly when it returns no error. *)
Lemma NewRequest_request_iff_no_error method url opts r e evs :
  newRequest method url opts = (r, e, evs) →
  (r = None ∧ e ≠ None) ∨ (e = None ∧ ∃ req, r = Some req).
Proof.
  subst newRequest. unfold EndpointAPI.NewRequest.
  destruct (http_NewRequestWithContext method url) as [x|req].
  - intros [= <- <- <-]. by left.
  - destruct (EndpointAPI.apply_request_options _ _ _) as [[x|req'] oevs]; intros [= <- <- <-].
    + by left.
    + right. eauto.
Qed.

(** X27. [Endpoint.Do] applies the options of the endpoint before those of the
    call: it behaves as an endpoint without options called with the
    endpoint's options followed by the call's. *)
Theorem Do_endpoint_options_first (e : EndpointAPI.Endpoint) (opts : list EndpointAPI.RequestOption) :
  do e opts
  = do (EndpointAPI.mkEndpoint (EndpointAPI.ep_Client e) (EndpointAPI.ep_Method e) (EndpointAPI.ep_URL e) [] (EndpointAPI.ep_Handlers e))
       (EndpointAPI.ep_Options e ++ opts).
Proof.
  subst do. unfold EndpointAPI.Do.
  assert (Hm : EndpointAPI.mergedOpts e opts = EndpointAPI.ep_Options e ++ opts).
  { unfold EndpointAPI.mergedOpts. destruct (EndpointAPI.ep_Options e) as [|o os]; [reflexivity|].
    destruct opts; [by rewrite app_nil_r|reflexivity]. }
  rewrite Hm. reflexivity.
Qed.

Lemma handlers_loop_returns_error (hs : list (Handler T)) : ∀ i w0 herr w hevs,
  Endpoint.handlers_loop i hs w0 = (Endpoint.Returned herr, w, hevs) → herr ≠ None.
Proof.
  induction hs as [|h hs IH]; intros i w0 herr w hevs; cbn; [discriminate|].
  destruct (h w0) as [[[x|] w1] evs0]; cbn; [|discriminate].
  destruct (errors_is x Endpoint.ErrSkipHandler).
  - destruct (Endpoint.handlers_loop (S i) hs w1) as [[ex w2] evs2] eqn:Hr.
    intros [= -> -> _]. by apply (IH _ _ _ _ _ Hr).
  - by intros [= <- _ _].
Qed.

(** X28. What [Endpoint.Do] returns: with a nil error, the value and the
    response, whose body is already closed; with an error, the zero value
    and a nil response, also when a response had been received. *)
Theorem Do_returns_response_iff_no_error (e : EndpointAPI.Endpoint) opts t r err final evs :
  do e opts = (t, r, err, final, evs) →
  match err with
  | None => ∃ resp, r = Some resp ∧ final = Some resp ∧ closed (RespBody resp) = true
  | Some _ => r = None ∧ t = zeroT
  end.
Proof.
  subst do. unfold EndpointAPI.Do.
  destruct (EndpointAPI.NewRequest _ _ _ _) as [[[req|] nerr] nevs] eqn:HN.
  2:{ apply NewRequest_request_iff_no_error in HN as [[_ Hne]|[_ [req H]]];
        [|discriminate].
      intros Heq. injection Heq as <- <- <- <- <-. by destruct nerr. }
  destruct (match EndpointAPI.ep_Client e with
            | Some c => c | None => http_DefaultClient end req) as [resp0|resp0 x].
  - unfold Endpoint.Do_dispatch.
    destruct (Endpoint.handlers_loop 0 (EndpointAPI.ep_Handlers e) _)
      as [[[herr| |] w] hevs] eqn:HL;
      intros Heq; injection Heq as <- <- <- <- <-.
    + apply handlers_loop_returns_error in HL. by destruct herr.
    + eexists. by repeat split.
    + done.
  - intros Heq. injection Heq as <- <- <- <- <-. done.
Qed.

(** X29. Once the client has given a response without error, [Endpoint.Do] closes
    its body before returning, whether a handler handled the response, none
    did, or one failed. *)
Theorem Do_always_closes_body (e : EndpointAPI.Endpoint) opts req nevs resp0 :
  newRequest (EndpointAPI.ep_Method e) (EndpointAPI.ep_URL e) (EndpointAPI.ep_Options e ++ opts) = (Some req, None, nevs) →
  match EndpointAPI.ep_Client e with Some c => c | None => http_DefaultClient end req = DoOk resp0 →
  ∃ final hevs,
    snd (fst (do e opts)) = Some final
    ∧ closed (RespBody final) = true
    ∧ snd (do e opts) = nevs ++ [EndpointAPI.EvSend req; EndpointAPI.EvHandlers hevs; EndpointAPI.EvClose].
Proof.
  intros HN HC. rewrite Do_endpoint_options_first.
  subst do newRequest. unfold EndpointAPI.Do. cbn [EndpointAPI.ep_Method EndpointAPI.ep_URL EndpointAPI.ep_Options
       EndpointAPI.ep_Client EndpointAPI.ep_Handlers].
  unfold EndpointAPI.mergedOpts. cbn [EndpointAPI.ep_Options]. rewrite HN, HC.
  destruct (Endpoint.Do_dispatch zeroT (EndpointAPI.ep_Handlers e) _) as [[[[t r] err] w] hevs].
  cbn. by exists (with_body (w_resp w) (snd (Body_Close (RespBody (w_resp w))))), hevs.
Qed.

(** X30. The trailer options work on a request without trailer, as
    [NewRequest] makes it: they allocate one. [WithTrailer] leaves the single
    given value, [WithAddedTrailer] puts the value after those already
    there; neither fails nor touches the rest of the request. *)
Theorem trailer_options_allocate (key value : string) (req : EndpointAPI.TRequest) :
  (∃ t, EndpointAPI.WithTrailer key value req = (None, EndpointAPI.mkTRequest (EndpointAPI.tr_req req) (Some t))
        ∧ Header_Values t key = [value])
  ∧ (∃ t, EndpointAPI.WithAddedTrailer key value req = (None, EndpointAPI.mkTRequest (EndpointAPI.tr_req req) (Some t))
          ∧ Header_Values t key
            = match EndpointAPI.Trailer req with
              | None => [value]
              | Some old => Header_Values old key ++ [value]
              end).
Proof.
  split; eexists; (split; [reflexivity|]).
  - unfold Header_Values, Header_Set. by rewrite lookup_insert_eq.
  - unfold Header_Values, Header_Add. rewrite lookup_insert_eq.
    by destruct (EndpointAPI.Trailer req).
Qed.

(** Under the renaming that relates the two handler loops, the status
    handlers of the two APIs are each other's image: they call the wrapped
    handler on the same responses and return corresponding errors. *)
Theorem StatusHandler_of_both_APIs (statusCode : Z) (handler : Handler T) (w : World T) :
  fst (EndpointAPI.StatusHandler statusCode (Endpoint.rename_handler handler) w)
  = fst (Endpoint.rename_handler (StatusHandler statusCode handler) w).
Proof.
  unfold EndpointAPI.StatusHandler, StatusHandler, ConditionalHandler, HandlerFunc,
    Endpoint.rename_handler.
  destruct (negb (StatusCode (w_resp w) =? statusCode)); [reflexivity|].
  by destruct (handler w) as [[e w'] evs].
Qed.

End EndpointAPIProperties.

(** ** Query parameters *)

Section QueryProperties.

Import NetURL.

Lemma mem_ascii_cons (c a : ascii) (s : string) :
  mem_ascii c (String a s) = Ascii.eqb c a || mem_ascii c s.
Proof. reflexivity. Qed.

Lemma append_empty (b : string) : EmptyString +:+ b = b.
Proof. reflexivity. Qed.

Lemma mem_ascii_app (c : ascii) (a b : string) :
  mem_ascii c (a +:+ b) = mem_ascii c a || mem_ascii c b.
Proof.
  induction a as [|x a IH]; [reflexivity|].
  by rewrite append_cons, !mem_ascii_cons, IH, orb_assoc.
Qed.

(** The escape of one byte is read back as that byte, and it holds none of
    the three bytes that structure a query. *)
Lemma escaped_byte (c : ascii) :
  let hi := upperhex (nat_of_ascii c / 16) in
  let lo := upperhex (nat_of_ascii c mod 16) in
  ishex hi && ishex lo = true
  ∧ ascii_of_nat (unhex hi * 16 + unhex lo) = c
  ∧ (∀ sep, mem_ascii sep "&;=" = true → Ascii.eqb sep hi = false ∧ Ascii.eqb sep lo = false).
Proof.
  destruct c as [[] [] [] [] [] [] [] []]; cbv zeta; (split; [vm_compute; reflexivity|]);
    (split; [vm_compute; reflexivity|]);
    intros sep Hsep; unfold mem_ascii in Hsep; cbn in Hsep;
    rewrite !orb_true_iff in Hsep;
    destruct Hsep as [Hs|[Hs|[Hs|Hs]]]; try discriminate;
    apply Ascii.eqb_eq in Hs; subst sep; vm_compute; split; reflexivity.
Qed.

Lemma unescaped_byte (c : ascii) :
  shouldEscapeQuery c = false →
  Ascii.eqb c "%" = false ∧ Ascii.eqb c "+" = false ∧ Ascii.eqb c " " = false
  ∧ ∀ sep, mem_ascii sep "&;=" = true → Ascii.eqb sep c = false.
Proof.
  intros Hc. repeat split.
  - destruct (Ascii.eqb_spec c "%") as [->|]; [discriminate|reflexivity].
  - destruct (Ascii.eqb_spec c "+") as [->|]; [discriminate|reflexivity].
  - destruct (Ascii.eqb_spec c " ") as [->|]; [discriminate|reflexivity].
  - intros sep Hsep. unfold mem_ascii in Hsep. cbn in Hsep.
    rewrite !orb_true_iff in Hsep.
    destruct Hsep as [Hs|[Hs|[Hs|Hs]]]; try discriminate;
      apply Ascii.eqb_eq in Hs; subst sep;
      match goal with |- Ascii.eqb ?s c = false =>
        destruct (Ascii.eqb_spec s c) as [<-|]; [discriminate|reflexivity] end.
Qed.

Lemma QueryUnescape_QueryEscape (s : string) : QueryUnescape (QueryEscape s) = Some s.
Proof.
  induction s as [|c s IH]; [reflexivity|].
  cbn [QueryEscape].
  destruct (Ascii.eqb_spec c " ") as [->|Hsp].
  - cbn. by rewrite IH.
  - destruct (shouldEscapeQuery c) eqn:Hc.
    + destruct (escaped_byte c) as (Hhex & Hval & _).
      cbn [QueryUnescape]. cbn [Ascii.eqb Bool.eqb]. rewrite Hhex, Hval, IH. reflexivity.
    + destruct (unescaped_byte c Hc) as (Hp & Hplus & _ & _).
      cbn [QueryUnescape]. rewrite Hp, Hplus, IH. reflexivity.
Qed.

Lemma QueryEscape_clean (s : string) (sep : ascii) :
  mem_ascii sep "&;=" = true → mem_ascii sep (QueryEscape s) = false.
Proof.
  intros Hsep. induction s as [|c s IH]; [reflexivity|].
  cbn [QueryEscape].
  destruct (Ascii.eqb_spec c " ") as [->|Hsp].
  - rewrite mem_ascii_cons, IH, orb_false_r.
    unfold mem_ascii in Hsep. cbn in Hsep. rewrite !orb_true_iff in Hsep.
    destruct Hsep as [Hs|[Hs|[Hs|Hs]]]; try discriminate;
      apply Ascii.eqb_eq in Hs; by subst sep.
  - destruct (shouldEscapeQuery c) eqn:Hc.
    + destruct (escaped_byte c) as (_ & _ & Hclean).
      destruct (Hclean sep Hsep) as [Hhi Hlo].
      rewrite !mem_ascii_cons, Hhi, Hlo, IH.
      unfold mem_ascii in Hsep. cbn in Hsep. rewrite !orb_true_iff in Hsep.
      destruct Hsep as [Hs|[Hs|[Hs|Hs]]]; try discriminate;
        apply Ascii.eqb_eq in Hs; by subst sep.
    + destruct (unescaped_byte c Hc) as (_ & _ & _ & Hclean).
      by rewrite mem_ascii_cons, (Hclean sep Hsep), IH.
Qed.

Lemma cut_at_app (sep : ascii) (a b : string) :
  mem_ascii sep a = false → cut_at sep (a +:+ String sep b) = (a, b).
Proof.
  induction a as [|c a IH]; intros Ha.
  - rewrite append_empty. cbn. by rewrite Ascii.eqb_refl.
  - rewrite mem_ascii_cons in Ha. apply orb_false_iff in Ha as [Hc Ha].
    rewrite append_cons. cbn [cut_at].
    rewrite Ascii.eqb_sym, Hc, (IH Ha). reflexivity.
Qed.

Lemma split_on_not_nil (sep : ascii) (s : string) : split_on sep s ≠ [].
Proof.
  induction s as [|c s IH]; [discriminate|]. cbn.
  destruct (Ascii.eqb c sep); [discriminate|].
  by destruct (split_on sep s).
Qed.

Lemma split_on_app (sep : ascii) (a b : string) :
  split_on sep (a +:+ String sep b) = split_on sep a ++ split_on sep b.
Proof.
  induction a as [|c a IH].
  - rewrite append_empty. cbn. by rewrite Ascii.eqb_refl.
  - rewrite append_cons. cbn [split_on]. rewrite IH.
    destruct (Ascii.eqb c sep); [reflexivity|].
    pose proof (split_on_not_nil sep a) as Hn.
    by destruct (split_on sep a).
Qed.

Lemma split_on_clean (sep : ascii) (s : string) :
  mem_ascii sep s = false → split_on sep s = [s].
Proof.
  induction s as [|c s IH]; intros Hs; [reflexivity|].
  rewrite mem_ascii_cons in Hs. apply orb_false_iff in Hs as [Hc Hs].
  cbn. rewrite Ascii.eqb_sym, Hc, (IH Hs). reflexivity.
Qed.

(** One encoded pair is parsed back as that pair. *)
Lemma parse_piece_encoded (m : gmap string (list string)) (k v : string) :
  parse_piece m (QueryEscape k +:+ "=" +:+ QueryEscape v) = Values_Add m k v.
Proof.
  unfold parse_piece.
  rewrite mem_ascii_app, (QueryEscape_clean k ";" eq_refl).
  change ("=" +:+ QueryEscape v) with (String "=" (QueryEscape v)).
  rewrite mem_ascii_cons, (QueryEscape_clean v ";" eq_refl). cbn [orb Ascii.eqb Bool.eqb].
  destruct (String.eqb_spec (QueryEscape k +:+ String "=" (QueryEscape v)) EmptyString)
    as [He|_].
  { destruct (QueryEscape k); discriminate. }
  rewrite (cut_at_app "=" _ _ (QueryEscape_clean k "=" eq_refl)).
  by rewrite !QueryUnescape_QueryEscape.
Qed.

Lemma encoded_pair_clean (k v : string) :
  mem_ascii "&" (QueryEscape k +:+ "=" +:+ QueryEscape v) = false.
Proof.
  rewrite mem_ascii_app, (QueryEscape_clean k "&" eq_refl).
  change ("=" +:+ QueryEscape v) with (String "=" (QueryEscape v)).
  by rewrite mem_ascii_cons, (QueryEscape_clean v "&" eq_refl).
Qed.

Lemma Query_empty : Query EmptyString = ∅.
Proof. reflexivity. Qed.

Lemma Query_encoded_pair (k v : string) :
  Query (QueryEscape k +:+ "=" +:+ QueryEscape v) = Values_Add ∅ k v.
Proof.
  unfold Query. rewrite (split_on_clean _ _ (encoded_pair_clean k v)).
  cbn [fold_left]. apply parse_piece_encoded.
Qed.

Lemma Query_more (buf k v : string) :
  Query (buf +:+ String "&" (QueryEscape k +:+ "=" +:+ QueryEscape v))
  = Values_Add (Query buf) k v.
Proof.
  unfold Query. rewrite split_on_app, fold_left_app.
  rewrite (split_on_clean _ _ (encoded_pair_clean k v)).
  cbn [fold_left]. apply parse_piece_encoded.
Qed.

Lemma append_not_empty (a : string) (c : ascii) (b : string) :
  a +:+ String c b ≠ EmptyString.
Proof. destruct a; discriminate. Qed.

Lemma encoded_pair_not_empty (k v : string) :
  QueryEscape k +:+ "=" +:+ QueryEscape v ≠ EmptyString.
Proof. apply append_not_empty. Qed.

Lemma encode_values (k : string) : ∀ vs buf m,
  buffer_of buf m →
  buffer_of
    (fold_left
       (fun buf value =>
          (if (0 <? String.length buf)%nat then buf +:+ "&" else buf)
          +:+ QueryEscape k +:+ "=" +:+ QueryEscape value) vs buf)
    (add_values m k vs).
Proof.
  induction vs as [|v vs IH]; intros buf m Hb; [exact Hb|].
  cbn [fold_left add_values]. apply IH. right.
  destruct Hb as [[-> ->]|[Hne <-]].
  - cbn [String.length Nat.ltb Nat.leb]. rewrite append_empty.
    split; [apply encoded_pair_not_empty|apply Query_encoded_pair].
  - destruct buf as [|c buf]; [done|]. cbn [String.length Nat.ltb Nat.leb].
    rewrite append_assoc.
    change ("&" +:+ QueryEscape k +:+ "=" +:+ QueryEscape v)
      with (String "&" (QueryEscape k +:+ "=" +:+ QueryEscape v)).
    split; [apply append_not_empty|apply Query_more].
Qed.

Lemma encode_keys (m : gmap string (list string)) : ∀ keys buf m0,
  buffer_of buf m0 →
  buffer_of
    (fold_left
       (fun buf k =>
          fold_left
            (fun buf value =>
               (if (0 <? String.length buf)%nat then buf +:+ "&" else buf)
               +:+ QueryEscape k +:+ "=" +:+ QueryEscape value)
            (default [] (m !! k)) buf)
       keys buf)
    (add_all m keys m0).
Proof.
  induction keys as [|k keys IH]; intros buf m0 Hb; [exact Hb|].
  cbn [fold_left add_all]. apply IH. by apply encode_values.
Qed.

Lemma add_values_lookup (k : string) : ∀ vs (m : gmap string (list string)) k',
  add_values m k vs !! k'
  = if decide (k' = k)
    then match vs with
         | [] => m !! k
         | _ => Some (default [] (m !! k) ++ vs)
         end
    else m !! k'.
Proof.
  induction vs as [|v vs IH]; intros m k'.
  - cbn. by destruct (decide (k' = k)) as [->|].
  - cbn [add_values fold_left]. fold (add_values (Values_Add m k v) k vs).
    rewrite IH. unfold Values_Add. destruct (decide (k' = k)) as [->|Hne].
    + rewrite lookup_insert_eq. cbn. destruct vs.
      * reflexivity.
      * by rewrite <- app_assoc.
    + by rewrite lookup_insert_ne.
Qed.

Lemma add_all_lookup (m : gmap string (list string)) : ∀ keys m0 k',
  NoDup keys →
  (∀ k, k ∈ keys → m0 !! k = None) →
  add_all m keys m0 !! k'
  = if decide (k' ∈ keys)
    then match default [] (m !! k') with
         | [] => None
         | l => Some l
         end
    else m0 !! k'.
Proof.
  induction keys as [|k keys IH]; intros m0 k' Hnd Hfresh.
  - cbn. destruct (decide (k' ∈ [])) as [Hin|_]; [by apply elem_of_nil in Hin|done].
  - apply NoDup_cons in Hnd as [Hk Hnd].
    cbn [add_all fold_left]. fold (add_all m keys (add_values m0 k (default [] (m !! k)))).
    rewrite IH; [|exact Hnd|].
    + destruct (decide (k' ∈ keys)) as [Hin|Hnin].
      * destruct (decide (k' ∈ k :: keys)) as [_|Hn]; [done|].
        exfalso. apply Hn. by right.
      * rewrite add_values_lookup.
        destruct (decide (k' = k)) as [->|Hne].
        -- destruct (decide (k ∈ k :: keys)) as [_|Hn]; [|exfalso; apply Hn; by left].
           rewrite (Hfresh k); [|by left]. by destruct (default [] (m !! k)).
        -- destruct (decide (k' ∈ k :: keys)) as [Hin|_]; [|done].
           apply elem_of_cons in Hin as [?|?]; done.
    + intros k0 Hk0. rewrite add_values_lookup.
      destruct (decide (k0 = k)) as [->|_]; [done|].
      apply Hfresh. by right.
Qed.

(** Encoding values and parsing the result gives the values back, provided
    no key has an empty list of values (such a key has no encoding). *)
Lemma Query_Encode (m : gmap string (list string)) :
  map_Forall (λ _ vs, vs ≠ []) m → Query (Encode m) = m.
Proof.
  intros Hne.
  assert (Hb : buffer_of (Encode m)
                 (add_all m (merge_sort string_le (map fst (map_to_list m))) ∅)).
  { unfold Encode. apply encode_keys. by left. }
  assert (HQ : Query (Encode m)
               = add_all m (merge_sort string_le (map fst (map_to_list m))) ∅).
  { destruct Hb as [[He Hm]|[_ H]]; [by rewrite He, Hm|exact H]. }
  rewrite HQ. apply map_eq. intros k.
  rewrite add_all_lookup.
  - destruct (decide (k ∈ merge_sort string_le (map fst (map_to_list m)))) as [Hin|Hnin].
    + destruct (m !! k) as [vs|] eqn:Hk; cbn.
      * specialize (Hne k vs Hk). by destruct vs.
      * rewrite merge_sort_Permutation in Hin.
        apply list_elem_of_fmap in Hin as ([k0 vs] & -> & Hin).
        apply elem_of_map_to_list in Hin. cbn in Hk. congruence.
    + destruct (m !! k) as [vs|] eqn:Hk; [|by rewrite lookup_empty].
      exfalso. apply Hnin. rewrite merge_sort_Permutation.
      apply list_elem_of_fmap. exists (k, vs). split; [reflexivity|].
      by apply elem_of_map_to_list.
  - rewrite merge_sort_Permutation. apply NoDup_fst_map_to_list.
  - intros k0 _. apply lookup_empty.
Qed.

Lemma parse_piece_nonempty (m : gmap string (list string)) (piece : string) :
  map_Forall (λ _ vs, vs ≠ []) m → map_Forall (λ _ vs, vs ≠ []) (parse_piece m piece).
Proof.
  intros Hm. unfold parse_piece.
  destruct (mem_ascii ";" piece); [exact Hm|].
  destruct (String.eqb piece EmptyString); [exact Hm|].
  destruct (cut_at "=" piece) as [key value].
  destruct (QueryUnescape key) as [k|]; [|exact Hm].
  destruct (QueryUnescape value) as [v|]; [|exact Hm].
  unfold Values_Add. apply map_Forall_insert_2; [|exact Hm].
  by destruct (default [] (m !! k)).
Qed.

Lemma Query_nonempty (rawQuery : string) : map_Forall (λ _ vs, vs ≠ []) (Query rawQuery).
Proof.
  unfold Query. generalize (split_on "&" rawQuery).
  assert (H0 : map_Forall (λ _ (vs : list string), vs ≠ []) (∅ : gmap string (list string)))
    by apply map_Forall_empty.
  revert H0. generalize (∅ : gmap string (list string)).
  intros m Hm l. revert m Hm.
  induction l as [|p l IH]; intros m Hm; [exact Hm|].
  cbn. apply IH. by apply parse_piece_nonempty.
Qed.

Context {T : Type}.
Implicit Types (ctx : @fetchContext T) (key value : string).

(** X23. [WithQueryParam] never fails and touches nothing but the raw query.
    Read back, the new query holds the single given value for the key,
    whatever the key held before, and for every other key what the old
    query held; pairs of the old query that cannot be parsed are gone. *)
Theorem WithQueryParam_sets_single_value key value ctx :
  ∃ rawQuery,
    WithQueryParam key value ctx = (None, with_query ctx rawQuery)
    ∧ Query rawQuery = Values_Set (Query (RawQuery (ReqURL (fc_Request ctx)))) key value
    ∧ ∀ other,
        Query rawQuery !! other
        = if decide (other = key) then Some [value]
          else Query (RawQuery (ReqURL (fc_Request ctx))) !! other.
Proof.
  eexists. split; [reflexivity|].
  assert (HQ : Query (Encode (Values_Set (Query (RawQuery (ReqURL (fc_Request ctx)))) key value))
               = Values_Set (Query (RawQuery (ReqURL (fc_Request ctx)))) key value).
  { apply Query_Encode. unfold Values_Set.
    apply map_Forall_insert_2; [done|apply Query_nonempty]. }
  split; [exact HQ|]. rewrite HQ. unfold Values_Set.
  intros other. destruct (decide (other = key)) as [->|Hne].
  - apply lookup_insert_eq.
  - by apply lookup_insert_ne.
Qed.

(** X24. [WithAddedQueryParam] never fails and touches nothing but the raw
    query. Read back, the new query holds for the key the values it held
    before, in their order, followed by the given one, and for every other
    key what the old query held. *)
Theorem WithAddedQueryParam_appends_value key value ctx :
  ∃ rawQuery,
    WithAddedQueryParam key value ctx = (None, with_query ctx rawQuery)
    ∧ Query rawQuery = Values_Add (Query (RawQuery (ReqURL (fc_Request ctx)))) key value
    ∧ ∀ other,
        Query rawQuery !! other
        = if decide (other = key)
          then Some (default [] (Query (RawQuery (ReqURL (fc_Request ctx))) !! key)
                     ++ [value])
          else Query (RawQuery (ReqURL (fc_Request ctx))) !! other.
Proof.
  eexists. split; [reflexivity|].
  assert (HQ : Query (Encode (Values_Add (Query (RawQuery (ReqURL (fc_Request ctx)))) key value))
               = Values_Add (Query (RawQuery (ReqURL (fc_Request ctx)))) key value).
  { apply Query_Encode. unfold Values_Add.
    apply map_Forall_insert_2; [|apply Query_nonempty].
    by destruct (default [] _). }
  split; [exact HQ|]. rewrite HQ. unfold Values_Add.
  intros other. destruct (decide (other = key)) as [->|Hne].
  - apply lookup_insert_eq.
  - by apply lookup_insert_ne.
Qed.

(** X25. Parameters set for different keys can be given in either order: the
    raw query written is the same, its keys being sorted. *)
Theorem WithQueryParam_order_irrelevant key1 value1 key2 value2 ctx :
  key1 ≠ key2 →
  snd (WithQueryParam key2 value2 (snd (WithQueryParam key1 value1 ctx)))
  = snd (WithQueryParam key1 value1 (snd (WithQueryParam key2 value2 ctx))).
Proof.
  intros Hne. unfold WithQueryParam. cbn -[Query Encode Values_Set].
  rewrite !Query_Encode;
    try (unfold Values_Set; apply map_Forall_insert_2; [done|apply Query_nonempty]).
  unfold Values_Set. by rewrite insert_insert_ne.
Qed.

End QueryProperties.

(** ** Instances on concrete inputs *)

Lemma discardBody_drains_and_closes_witness :
  discardBody jsonResponse
  = (close_err (RespBody jsonResponse),
     with_body jsonResponse (closed_with [] (RespBody jsonResponse))).
Proof.
  apply discardBody_drains_and_closes.
  - by left.
  - repeat constructor. by eexists.
Defined.

Lemma discardBody_read_error_wins_witness :
  discardBody (mkResponse 200 ∅ interruptedBody)
  = (Some (otherError "unexpected EOF"),
     with_body (mkResponse 200 ∅ interruptedBody) (closed_with [Data "b"] interruptedBody)).
Proof.
  apply (discardBody_read_error_wins (mkResponse 200 ∅ interruptedBody) [Data "a"]).
  - by left.
  - repeat constructor. by eexists.
  - reflexivity.
Defined.

Lemma discardBody_after_close_witness :
  discardBody (mkResponse 200 ∅ closedBody)
  = (Some (otherError "http: read on closed response body"),
     with_body (mkResponse 200 ∅ closedBody) (closed_with [Data "rest"] closedBody)).
Proof.
  apply (discardBody_after_close (mkResponse 200 ∅ closedBody)); reflexivity.
Defined.

Lemma UnmarshalJSONHandler_closes_and_reports_witness :
  UnmarshalJSONHandler exampleUnmarshal (mkWorld 0%nat jsonResponse)
  = (None,
     mkWorld 1%nat (with_body jsonResponse (closed_with [] (RespBody jsonResponse))), []).
Proof.
  apply (UnmarshalJSONHandler_closes_and_reports exampleUnmarshal
           (mkWorld 0%nat jsonResponse) None (mkBody [] false None None) 1%nat).
  reflexivity.
Defined.

Lemma UnmarshalXMLHandler_closes_and_reports_witness :
  UnmarshalXMLHandler exampleDecode false (mkWorld 0%nat jsonResponse)
  = (None,
     mkWorld 2%nat (with_body jsonResponse (closed_with [] (RespBody jsonResponse))), []).
Proof.
  apply (UnmarshalXMLHandler_closes_and_reports exampleDecode false
           (mkWorld 0%nat jsonResponse) None (mkBody [] false None None) 2%nat).
  reflexivity.
Defined.

Lemma HandlerChain_with_fallback_witness :
  errors_Is
    (fst (fst (HandlerChain_HandleResponse
                 ([StatusHandler 204 DiscardBodyHandler] ++ [ErrorHandler None]) world0)))
    ErrUnhandledResponse = false.
Proof.
  apply (HandlerChain_with_fallback [StatusHandler 204 DiscardBodyHandler] None world0).
  reflexivity.
Defined.

Lemma StatusHandler_ContentTypeHandler_conjunction_witness :
  (∃ e w' evs, counting None (mkWorld 0%nat jsonResponse) = (e, w', evs)
     ∧ StatusHandler 200 (ContentTypeHandler "application/json" (counting None))
         (mkWorld 0%nat jsonResponse)
       = (e, w', EvDispatch :: EvDispatch :: evs)
     ∧ ContentTypeHandler "application/json" (StatusHandler 200 (counting None))
         (mkWorld 0%nat jsonResponse)
       = (e, w', EvDispatch :: EvDispatch :: evs))
  ∧ (fst (StatusHandler 201 (ContentTypeHandler "application/json" (counting None))
            (mkWorld 0%nat jsonResponse))
       = (Some (errNew ErrUnhandledResponse), mkWorld 0%nat jsonResponse)
     ∧ fst (ContentTypeHandler "application/json" (StatusHandler 201 (counting None))
              (mkWorld 0%nat jsonResponse))
       = (Some (errNew ErrUnhandledResponse), mkWorld 0%nat jsonResponse)).
Proof.
  split.
  - apply (proj1 (StatusHandler_ContentTypeHandler_conjunction 200 "application/json"
                    (counting None) (mkWorld 0%nat jsonResponse))).
    split; [reflexivity|]. right. reflexivity.
  - apply (proj2 (StatusHandler_ContentTypeHandler_conjunction 201 "application/json"
                    (counting None) (mkWorld 0%nat jsonResponse))).
    intros [H _]. cbn in H. lia.
Defined.

Lemma DefaultHandlers_unrecognised_response_witness :
  HandlerChain_HandleResponse
    (DefaultHandlers "application/problem+json" exampleFrom exampleUnmarshal exampleDecode)
    world0
  = (Some (errNew ErrUnhandledResponse), world0,
     [EvCall 0; EvCall 1; EvCall 2; EvCall 3; EvCall 4]).
Proof.
  apply (DefaultHandlers_unrecognised_response "application/problem+json" exampleFrom
           exampleUnmarshal exampleDecode world0).
  - intros [H|H]; vm_compute in H; discriminate.
  - intros [H|H]; vm_compute in H; discriminate.
  - intros [H|H]; vm_compute in H; discriminate.
  - cbn. lia.
  - cbn. lia.
Defined.

Lemma DefaultHandlers_problem_first_witness :
  ∃ e w' evs,
    ProblemHandler "application/problem+json" exampleFrom (mkWorld 0%nat problemResponse)
      = (Some e, w', evs)
    ∧ HandlerChain_HandleResponse
        (DefaultHandlers "application/problem+json" exampleFrom exampleUnmarshal
           exampleDecode) (mkWorld 0%nat problemResponse)
      = (Some e, w', EvCall 0 :: evs)
    ∧ closed (RespBody (w_resp w')) = true.
Proof.
  apply (DefaultHandlers_problem_first "application/problem+json" exampleFrom
           exampleUnmarshal exampleDecode (mkWorld 0%nat problemResponse)).
  - left. reflexivity.
  - reflexivity.
Defined.

Lemma DefaultHandlers_no_content_witness :
  ∃ evs,
    HandlerChain_HandleResponse
      (DefaultHandlers "application/problem+json" exampleFrom exampleUnmarshal
         exampleDecode) (mkWorld 7%nat noContentResponse)
    = (fst (discardBody noContentResponse),
       mkWorld 7%nat (snd (discardBody noContentResponse)), evs).
Proof.
  apply (DefaultHandlers_no_content "application/problem+json" exampleFrom
           exampleUnmarshal exampleDecode (mkWorld 7%nat noContentResponse)).
  - intros [H|H]; vm_compute in H; discriminate.
  - intros [H|H]; vm_compute in H; discriminate.
  - intros [H|H]; vm_compute in H; discriminate.
  - left. reflexivity.
  - reflexivity.
Defined.

Lemma DefaultHandlers_json_witness :
  ∃ e w' evs,
    UnmarshalJSONHandler exampleUnmarshal (mkWorld 0%nat jsonResponse) = (e, w', evs)
    ∧ HandlerChain_HandleResponse
        (DefaultHandlers "application/problem+json" exampleFrom exampleUnmarshal
           exampleDecode) (mkWorld 0%nat jsonResponse)
      = (e, w', [EvCall 0; EvCall 1; EvDispatch] ++ evs).
Proof.
  apply (DefaultHandlers_json "application/problem+json" exampleFrom
           exampleUnmarshal exampleDecode (mkWorld 0%nat jsonResponse)).
  - intros [H|H]; vm_compute in H; discriminate.
  - right. reflexivity.
  - reflexivity.
Defined.

Lemma FetchWithResponse_zero_value_on_error_witness :
  ∃ t resp e evs net',
    FetchWithResponse 0%nat "application/problem+json" exampleFrom exampleUnmarshal
      exampleDecode exampleRequest exampleClient "GET" "/info"
      [WithHandler (counting (Some (otherError "handler error")))] []
    = (t, resp, e, evs, net')
    ∧ match e with
      | Some _ => t = 0%nat
      | None => ∃ r, resp = Some r
      end
    ∧ fst (fst (fst (Fetch 0%nat "application/problem+json" exampleFrom exampleUnmarshal
                       exampleDecode exampleRequest exampleClient "GET" "/info"
                       [WithHandler (counting (Some (otherError "handler error")))] [])))
      = (t, e)
    ∧ snd (Fetch 0%nat "application/problem+json" exampleFrom exampleUnmarshal
             exampleDecode exampleRequest exampleClient "GET" "/info"
             [WithHandler (counting (Some (otherError "handler error")))] [])
      = net'.
Proof.
  do 5 eexists. split; [reflexivity|].
  eapply (FetchWithResponse_zero_value_on_error 0%nat "application/problem+json"
           exampleFrom exampleUnmarshal exampleDecode exampleRequest exampleClient
           "GET" "/info" [WithHandler (counting (Some (otherError "handler error")))] []).
  reflexivity.
Defined.

Lemma FetchWithResponse_calls_Do_at_most_once_witness :
  ∃ t resp e evs net',
    FetchWithResponse 0%nat "application/problem+json" exampleFrom exampleUnmarshal
      exampleDecode exampleRequest exampleClient "GET" "/info"
      [WithHeader "Accept" "application/json"] []
    = (t, resp, e, evs, net')
    ∧ ((net' = [] ∧ dispatches evs = 0%nat ∧ resp = None ∧ is_nil e = false)
       ∨ (∃ req ctx,
            exampleRequest "GET" "/info" = inr req
            ∧ run_options [WithHeader "Accept" "application/json"]
                (mkFetchContext exampleClient req
                   (HandlerChain_HandleResponse
                      (DefaultHandlers "application/problem+json" exampleFrom
                         exampleUnmarshal exampleDecode))) = Some ctx
            ∧ net' = snd (fc_Client ctx (fc_Request ctx) [])
            ∧ dispatches evs = 1%nat)).
Proof.
  do 5 eexists. split; [reflexivity|].
  eapply (FetchWithResponse_calls_Do_at_most_once 0%nat "application/problem+json"
           exampleFrom exampleUnmarshal exampleDecode exampleRequest exampleClient
           "GET" "/info" [WithHeader "Accept" "application/json"] []).
  reflexivity.
Defined.

(** With the example client, which records what it is given, the network
    after a call holds the one request, as the option left it. *)
Example FetchWithResponse_sends_once :
  snd (FetchWithResponse 0%nat "application/problem+json" exampleFrom exampleUnmarshal
         exampleDecode exampleRequest exampleClient "GET" "/info"
         [WithHeader "Accept" "application/json"] [])
  = [mkRequest "GET" (mkURL "/info" EmptyString)
       (<["Accept" := ["application/json"]]> ∅) 0 None None].
Proof. reflexivity. Qed.

Lemma WithClient_WithHandler_override_witness :
  ∃ ctx,
    run_options [WithHeader "Accept" "application/json"; WithClient exampleClient]
      (mkFetchContext exampleClient (mkRequest "GET" (mkURL "/info" EmptyString) ∅ 0 None None)
         (HandlerChain_HandleResponse
            (DefaultHandlers "application/problem+json" exampleFrom exampleUnmarshal
               exampleDecode)))
    = Some ctx
    ∧ FetchWithResponse 0%nat "application/problem+json" exampleFrom exampleUnmarshal
        exampleDecode exampleRequest exampleClient "GET" "/info"
        ([WithHeader "Accept" "application/json"; WithClient exampleClient]
         ++ [WithClient interruptedClient; WithHandler (counting None)]) []
      = let '(t, resp, e, evs, net') :=
          send_and_handle 0%nat interruptedClient (counting None) (fc_Request ctx) [] in
        (t, resp, e,
         map EvOption
           (seq 0 (length [WithHeader (T:=nat) "Accept" "application/json";
                           WithClient exampleClient] + 2)) ++ evs, net').
Proof.
  eexists. split; [reflexivity|].
  apply (WithClient_WithHandler_override 0%nat "application/problem+json"
           exampleFrom exampleUnmarshal exampleDecode exampleRequest exampleClient
           "GET" "/info" [WithHeader "Accept" "application/json"; WithClient exampleClient]
           (mkRequest "GET" (mkURL "/info" EmptyString) ∅ 0 None None)).
  - reflexivity.
  - reflexivity.
Defined.

Lemma WithPathValue_changes_only_the_path_witness :
  WithPathValue "id" "1234" (contextWithPath "/api/product/{id}")
    = (Some (unusedPathValueError (ReqURL (fc_Request (contextWithPath "/api/product/{id}")))
               "id" "1234"),
       contextWithPath "/api/product/{id}")
  ∨ ∃ path',
      WithPathValue "id" "1234" (contextWithPath "/api/product/{id}")
        = (None, with_path (contextWithPath "/api/product/{id}") path')
      ∧ path' ≠ Path (ReqURL (fc_Request (contextWithPath "/api/product/{id}")))
      ∧ has_placeholder "id" (Path (ReqURL (fc_Request (contextWithPath "/api/product/{id}")))).
Proof.
  apply (WithPathValue_changes_only_the_path "id" "1234"
           (contextWithPath "/api/product/{id}")).
  reflexivity.
Defined.

(** The example of the documentation takes the second branch. *)
Example WithPathValue_documentation_example :
  WithPathValue "id" "1234" (contextWithPath "/api/product/{id}")
  = (None, with_path (contextWithPath "/api/product/{id}") "/api/product/1234").
Proof. reflexivity. Qed.

Lemma header_options_keep_other_headers_witness :
  Header_Values
    (ReqHeader (fc_Request (snd (WithHeader "accept" "text/plain" exampleContext))))
    "Content-Type"
  = Header_Values (ReqHeader (fc_Request exampleContext)) "Content-Type"
  ∧ Header_Values
      (ReqHeader (fc_Request (snd (WithAddedHeader "accept" "text/plain" exampleContext))))
      "Content-Type"
    = Header_Values (ReqHeader (fc_Request exampleContext)) "Content-Type".
Proof.
  apply (header_options_keep_other_headers "accept" "text/plain" "Content-Type"
           exampleContext).
  intros H. vm_compute in H. discriminate.
Defined.

Lemma WithHeader_Content_Type_survives_WithBodyJSON_witness :
  Header_Values
    (ReqHeader (fc_Request
       (snd (WithBodyJSON exampleMarshal 1%nat
               (snd (WithHeader "Content-Type" "application/my-content-type"
                       exampleContext))))))
    "Content-Type" = ["application/my-content-type"]
  ∧ Header_Values
      (ReqHeader (fc_Request
         (snd (WithHeader "Content-Type" "application/my-content-type"
                 (snd (WithBodyJSON exampleMarshal 1%nat exampleContext))))))
      "Content-Type" = ["application/my-content-type"].
Proof.
  apply (WithHeader_Content_Type_survives_WithBodyJSON exampleMarshal 1%nat "{}"
           "application/my-content-type" exampleContext).
  - reflexivity.
  - discriminate.
Defined.

Lemma NewRequest_applies_options_in_order_witness :
  let opts :=
    [EndpointAPI.WithHeader "Accept" "application/json"; failingRequestOption;
     EndpointAPI.WithTrailer "X-Late" "1"] in
  let req0 :=
    EndpointAPI.mkTRequest (mkRequest "GET" (mkURL "/info" EmptyString) ∅ 0 None None) None in
  (∃ pre opt post req_k e req',
      opts = pre ++ opt :: post ∧
      EndpointAPI.run_request_options pre req0 = Some req_k ∧
      opt req_k = (Some e, req') ∧
      EndpointAPI.NewRequest exampleRequest "GET" "/info" opts
        = (None, Some e, map EndpointAPI.EvOpt (seq 0 (S (length pre)))))
  ∨ (∃ req_n,
      EndpointAPI.run_request_options opts req0 = Some req_n ∧
      EndpointAPI.NewRequest exampleRequest "GET" "/info" opts
        = (Some req_n, None, map EndpointAPI.EvOpt (seq 0 (length opts)))).
Proof.
  intros opts req0.
  apply (NewRequest_applies_options_in_order exampleRequest "GET" "/info" opts
           (mkRequest "GET" (mkURL "/info" EmptyString) ∅ 0 None None)).
  reflexivity.
Defined.

Lemma Do_returns_response_iff_no_error_witness :
  ∃ t r err final evs,
    EndpointAPI.Do exampleRequest exampleClient1 0%nat exampleEndpoint [] = (t, r, err, final, evs)
    ∧ match err with
      | None => ∃ resp, r = Some resp ∧ final = Some resp ∧ closed (RespBody resp) = true
      | Some _ => r = None ∧ t = 0%nat
      end.
Proof.
  do 5 eexists. split; [reflexivity|].
  eapply (Do_returns_response_iff_no_error 0%nat exampleRequest exampleClient1
            exampleEndpoint []).
  reflexivity.
Defined.

Lemma Do_always_closes_body_witness :
  ∃ req nevs,
    EndpointAPI.NewRequest exampleRequest "GET" "/product"
      (EndpointAPI.ep_Options exampleEndpoint ++ [])
    = (Some req, None, nevs)
    ∧ ∃ final hevs,
        snd (fst (EndpointAPI.Do exampleRequest exampleClient1 0%nat exampleEndpoint []))
          = Some final
        ∧ closed (RespBody final) = true
        ∧ snd (EndpointAPI.Do exampleRequest exampleClient1 0%nat exampleEndpoint [])
          = nevs ++ [EndpointAPI.EvSend req; EndpointAPI.EvHandlers hevs; EndpointAPI.EvClose].
Proof.
  do 2 eexists. split; [reflexivity|].
  eapply (Do_always_closes_body 0%nat exampleRequest exampleClient1 exampleEndpoint []).
  - reflexivity.
  - reflexivity.
Defined.

Lemma WithQueryParam_order_irrelevant_witness :
  snd (WithQueryParam "page" "2" (snd (WithQueryParam "q" "a b" exampleContext)))
  = snd (WithQueryParam "q" "a b" (snd (WithQueryParam "page" "2" exampleContext))).
Proof.
  apply (WithQueryParam_order_irrelevant "q" "a b" "page" "2" exampleContext).
  discriminate.
Defined.

(** The query options on the cases of the repository's tests. *)
Example WithQueryParam_replaces :
  RawQuery (ReqURL (fc_Request
    (snd (WithQueryParam "Query-Param-A" "A-2"
            (snd (WithQueryParam "Query-Param-A" "A-1" exampleContext))))))
  = "Query-Param-A=A-2".
Proof. vm_compute. reflexivity. Qed.

Example WithAddedQueryParam_accumulates :
  RawQuery (ReqURL (fc_Request
    (snd (WithAddedQueryParam "Query-Param-B" "B-1"
            (snd (WithAddedQueryParam "Query-Param-A" "A-2"
                    (snd (WithAddedQueryParam "Query-Param-A" "A-1" exampleContext))))))))
  = "Query-Param-A=A-1&Query-Param-A=A-2&Query-Param-B=B-1".
Proof. vm_compute. reflexivity. Qed.
